(** * The lazily populated file tree model of the GUI

    Shallow embedding of [gpt_engineer/applications/gui/file_tree_model.py]:
    the [FileTreeItem] node store and the [FileTreeModel] adapter that a
    Qt tree view queries.

    Python objects live in a heap (an arena indexed by allocation order),
    so that object identity, the parent back-reference and the in-place
    [append] on [child_items] are modelled as the interpreter performs
    them.  Methods are computations in a state-and-exception monad over
    that heap.  The file system is an oracle indexed by the number of
    system calls already made, so it may change between any two calls. *)

From Stdlib Require Import ZArith Lia Bool List Sorting.Sorted Sorting.Permutation.
From Stdlib Require Import Strings.String Strings.Ascii Structures.OrderedTypeEx.
From stdpp Require Import base option list strings gmap.

Local Open Scope string_scope.
Local Open Scope list_scope.
Local Open Scope Z_scope.

(** ** pathlib paths *)

(** A path is the sequence of its components behind the anchor (the
    [_tail] of a [PurePath]); the anchor itself, drive and root, is not
    represented. Every path of one model instance is the root path followed
    by more components, so all of them share the anchor of the root, and no
    method of the file looks at it. The root directory itself is the empty
    sequence. *)
Abbreviation Path := (list string) (only parsing).

(** [PurePath.name]: the final component, the empty string if there is
    none, as for a path that is its anchor alone. *)
Definition name (p : Path) : string := List.last p "".

(** [iterdir] builds each child path by appending one component. *)
Definition joinpath (p : Path) (n : string) : Path := p ++ [n].

(** ** The file system *)

(** What there is at a path, as the system calls see it: nothing (the
    [stat] fails with "no such file"); a regular file; a directory that can
    be listed; a directory whose listing is denied; or a path whose [stat]
    and listing fail with the given error number, as for a component that
    is too long or a parent directory that may not be searched. *)
Inductive fs_entry :=
| Absent
| RegularFile
| Directory (entries : list string)
| UnreadableDirectory
| StatFails (errno : Z).

(** What the file system holds at each path, at the time of the n-th
    system call of the session. *)
Definition FileSystem := nat -> Path -> fs_entry.

Inductive syscall :=
| SysStat (p : Path)
| SysScandir (p : Path).

(** ** Python exceptions and the heap *)

Inductive exn :=
| PermissionError
| FileNotFoundError
| NotADirectoryError
| OSError (errno : Z)
| ValueError
| AttributeError.

Inductive result (A : Type) :=
| Ok (a : A)
| Raise (e : exn).
Arguments Ok {A} a.
Arguments Raise {A} e.

(** Error numbers of the host, with their values on Linux. *)
Definition EPERM : Z := 1.
Definition ENOENT : Z := 2.
Definition EBADF : Z := 9.
Definition EACCES : Z := 13.
Definition ENOTDIR : Z := 20.
Definition ENAMETOOLONG : Z := 36.
Definition ELOOP : Z := 40.

(** The exception class Python raises for an error number. *)
Definition OSError_of (errno : Z) : exn :=
  if (errno =? EACCES) || (errno =? EPERM) then PermissionError
  else if errno =? ENOENT then FileNotFoundError
  else if errno =? ENOTDIR then NotADirectoryError
  else OSError errno.

(** [pathlib._ignore_error]: the errors of the [stat] that [is_dir]
    answers False to; it raises every other one again. *)
Definition ignore_error (errno : Z) : bool :=
  (errno =? ENOENT) || (errno =? ENOTDIR) || (errno =? EBADF) || (errno =? ELOOP).

(** [Path.is_dir] on what the [stat] finds. *)
Definition stat_is_dir (e : fs_entry) : result bool :=
  match e with
  | Directory _ | UnreadableDirectory => Ok true
  | Absent | RegularFile => Ok false
  | StatFails errno =>
      if ignore_error errno then Ok false else Raise (OSError_of errno)
  end.

(** [os.listdir] on what is there. *)
Definition scandir (e : fs_entry) : result (list string) :=
  match e with
  | Directory names => Ok names
  | UnreadableDirectory => Raise PermissionError
  | Absent => Raise FileNotFoundError
  | RegularFile => Raise NotADirectoryError
  | StatFails errno => Raise (OSError_of errno)
  end.

Abbreviation node_id := nat (only parsing).

(** class FileTreeItem: its four attributes. *)
Record FileTreeItem := mkItem {
  path : Path;
  parent_item : option node_id;
  child_items : list node_id;
  loaded : bool
}.

Record World := mkWorld {
  heap : list FileTreeItem;
  syscalls : list syscall
}.

Definition M (A : Type) : Type := World -> result A * World.

Definition ret {A} (a : A) : M A := fun w => (Ok a, w).

Definition raise {A} (e : exn) : M A := fun w => (Raise e, w).

Definition bind {A B} (m : M A) (k : A -> M B) : M B :=
  fun w =>
    match m w with
    | (Ok a, w') => k a w'
    | (Raise e, w') => (Raise e, w')
    end.

Notation "x <- m ;; k" := (bind m (fun x => k))
  (at level 100, m at next level, right associativity).
Notation "m ;;; k" := (bind m (fun _ => k))
  (at level 100, right associativity).

(** Attribute access through a reference. A reference to no object is what
    Python reports as an attribute error on [None]. *)
Definition get_item (n : node_id) : M FileTreeItem :=
  fun w =>
    match heap w !! n with
    | Some it => (Ok it, w)
    | None => (Raise AttributeError, w)
    end.

Definition set_item (n : node_id) (it : FileTreeItem) : M unit :=
  fun w => (Ok tt, mkWorld (<[n := it]> (heap w)) (syscalls w)).

(** Iteration of a loop body over a list, in order. *)
Fixpoint for_each {A} (l : list A) (body : A -> M unit) : M unit :=
  match l with
  | [] => ret tt
  | x :: l' => body x ;;; for_each l' body
  end.

(** ** str and list primitives *)

(** [s.startswith(p)] *)
Definition startswith (s p : string) : bool := String.prefix p s.

(** The set literal of ignored names in [load_children]. *)
Definition IGNORED : gset string :=
  {[ "__pycache__"; "node_modules"; "venv" ]}.

(** The test guarding the [append] in [load_children]. *)
Definition shown (n : string) : bool :=
  negb (startswith n ".") && negb (bool_decide (n ∈ IGNORED)).

(** [l.index(x)]: the first position holding [x]. *)
Fixpoint list_index (x : node_id) (l : list node_id) : option nat :=
  match l with
  | [] => None
  | y :: l' => if Nat.eqb y x then Some O else S <$> list_index x l'
  end.

(** Python's [<] on lists of strings. *)
Fixpoint parts_ltb (l1 l2 : list string) : bool :=
  match l1, l2 with
  | _, [] => false
  | [], _ :: _ => true
  | x :: l1', y :: l2' =>
      match String.compare x y with
      | Lt => true
      | Eq => parts_ltb l1' l2'
      | Gt => false
      end
  end.

Section Model.

(** [os.path.normcase] of the path flavour: the identity on POSIX,
    lower-casing on Windows. *)
Variable normcase : string -> string.

Variable fs : FileSystem.

(** [PurePath.__lt__]: compares the case-normalised parts. *)
Definition path_ltb (p q : Path) : bool :=
  parts_ltb (List.map normcase p) (List.map normcase q).

(** [sorted]: a stable sort that only uses [<]. Each element is placed
    behind the elements already placed that are not greater. *)
Fixpoint insort (x : Path) (l : list Path) : list Path :=
  match l with
  | [] => [x]
  | y :: l' => if path_ltb x y then x :: l else y :: insort x l'
  end.

Definition sorted (l : list Path) : list Path :=
  fold_left (fun acc x => insort x acc) l [].

(** ** System calls *)

Definition now (w : World) : nat := length (syscalls w).

Definition log (c : syscall) (w : World) : World :=
  mkWorld (heap w) (syscalls w ++ [c]).

(** [Path.is_dir]: one [stat]; false for whatever is not a directory, a
    missing path included; an error of the [stat] that is not ignored is
    raised. *)
Definition is_dir (p : Path) : M bool :=
  fun w => (stat_is_dir (fs (now w) p), log (SysStat p) w).

(** [Path.iterdir], consumed at once by [sorted]. *)
Definition iterdir (p : Path) : M (list Path) :=
  fun w =>
    (match scandir (fs (now w) p) with
     | Ok names => Ok (List.map (joinpath p) names)
     | Raise e => Raise e
     end,
     log (SysScandir p) w).

(** ** class FileTreeItem *)

(** [FileTreeItem(path, parent)] *)
Definition FileTreeItem_init (p : Path) (parent : option node_id) : M node_id :=
  fun w =>
    (Ok (length (heap w)),
     mkWorld (heap w ++ [mkItem p parent [] false]) (syscalls w)).

(** [self.child_items.append(c)] *)
Definition append_child (self c : node_id) : M unit :=
  it <- get_item self ;;
  set_item self (mkItem (path it) (parent_item it) (child_items it ++ [c]) (loaded it)).

(** [self.loaded = True] *)
Definition set_loaded (self : node_id) : M unit :=
  it <- get_item self ;;
  set_item self (mkItem (path it) (parent_item it) (child_items it) true).

Definition load_children (self : node_id) : M unit :=
  it <- get_item self ;;
  if loaded it then ret tt
  else
    d <- is_dir (path it) ;;
    (if d then
       ps <- iterdir (path it) ;;
       for_each (sorted ps) (fun child_path =>
         if shown (name child_path) then
           c <- FileTreeItem_init child_path (Some self) ;;
           append_child self c
         else ret tt)
     else ret tt) ;;;
    set_loaded self.

(** [child(row)]; [None] is Python's [None]. *)
Definition child (self : node_id) (row : Z) : M (option node_id) :=
  it <- get_item self ;;
  if (row <? 0) || (row >=? Z.of_nat (length (child_items it))) then ret None
  else
    match child_items it !! Z.to_nat row with
    | Some c => ret (Some c)
    | None => ret None
    end.

Definition child_count (self : node_id) : M Z :=
  load_children self ;;;
  it <- get_item self ;;
  ret (Z.of_nat (length (child_items it))).

Definition row (self : node_id) : M Z :=
  it <- get_item self ;;
  match parent_item it with
  | Some p =>
      pit <- get_item p ;;
      match list_index self (child_items pit) with
      | Some i => ret (Z.of_nat i)
      | None => raise ValueError
      end
  | None => ret 0
  end.

(** ** Qt's QModelIndex and the inherited QAbstractItemModel methods *)

Record QModelIndex := mkIndex {
  ix_row : Z;
  ix_column : Z;
  ix_pointer : option node_id;
  ix_model : bool
}.

(** [QModelIndex()] *)
Definition QModelIndex_null : QModelIndex := mkIndex (-1) (-1) None false.

Definition isValid (i : QModelIndex) : bool :=
  (0 <=? ix_row i) && (0 <=? ix_column i) && ix_model i.

Definition createIndex (r c : Z) (p : node_id) : QModelIndex :=
  mkIndex r c (Some p) true.

(** [index.internalPointer()] followed by an attribute access. *)
Definition internalPointer (i : QModelIndex) : M node_id :=
  match ix_pointer i with
  | Some p => ret p
  | None => raise AttributeError
  end.

Inductive ItemDataRole :=
| DisplayRole
| DecorationRole
| ToolTipRole
| UserRole (n : Z).

(** ** class FileTreeModel *)

Record FileTreeModel := mkModel { root_item : node_id }.

(** [FileTreeModel(root_path)] *)
Definition FileTreeModel_init (root_path : Path) : M FileTreeModel :=
  r <- FileTreeItem_init root_path None ;;
  ret (mkModel r).

Definition columnCount (self : FileTreeModel) (parent : QModelIndex) : M Z :=
  ret 1.

Definition rowCount (self : FileTreeModel) (parent : QModelIndex) : M Z :=
  if ix_column parent >? 0 then ret 0
  else
    parent_item <- (if negb (isValid parent) then ret (root_item self)
                    else internalPointer parent) ;;
    child_count parent_item.

(** Qt's [hasIndex]: it calls the model's own [rowCount] and
    [columnCount]. An exception of [rowCount] is taken to reach the caller
    of [hasIndex]. *)
Definition hasIndex (self : FileTreeModel) (r c : Z) (parent : QModelIndex) : M bool :=
  if (r <? 0) || (c <? 0) then ret false
  else
    n <- rowCount self parent ;;
    if r <? n then
      k <- columnCount self parent ;;
      ret (c <? k)
    else ret false.

Definition index (self : FileTreeModel) (r c : Z) (parent : QModelIndex) : M QModelIndex :=
  h <- hasIndex self r c parent ;;
  if negb h then ret QModelIndex_null
  else
    parent_item <- (if negb (isValid parent) then ret (root_item self)
                    else internalPointer parent) ;;
    child_item <- child parent_item r ;;
    match child_item with
    | Some ci => ret (createIndex r c ci)
    | None => ret QModelIndex_null
    end.

Definition parent (self : FileTreeModel) (i : QModelIndex) : M QModelIndex :=
  if negb (isValid i) then ret QModelIndex_null
  else
    child_item <- internalPointer i ;;
    it <- get_item child_item ;;
    if bool_decide (parent_item it = Some (root_item self)) then ret QModelIndex_null
    else
      match parent_item it with
      | Some p =>
          r <- row p ;;
          ret (createIndex r 0 p)
      | None => raise AttributeError
      end.

Definition data (self : FileTreeModel) (i : QModelIndex) (role : ItemDataRole)
  : M (option string) :=
  if negb (isValid i) then ret None
  else
    match role with
    | DisplayRole =>
        item <- internalPointer i ;;
        it <- get_item item ;;
        ret (Some (name (path it)))
    | _ => ret None
    end.

End Model.

(** ** Sessions: what the view may ask of one model instance *)

Inductive call :=
| CallIndex (r c : Z) (parent : QModelIndex)
| CallParent (i : QModelIndex)
| CallRowCount (parent : QModelIndex)
| CallColumnCount (parent : QModelIndex)
| CallData (i : QModelIndex) (role : ItemDataRole).

(** The world a computation leaves behind, whether it returned or raised. *)
Definition run {A} (m : M A) (w : World) : World := (m w).2.

Definition empty_world : World := mkWorld [] [].

Section Session.

Variable normcase : string -> string.
Variable fs : FileSystem.

Definition exec (self : FileTreeModel) (c : call) (w : World) : World :=
  match c with
  | CallIndex r c p => run (index normcase fs self r c p) w
  | CallParent i => run (parent self i) w
  | CallRowCount p => run (rowCount normcase fs self p) w
  | CallColumnCount p => run (columnCount self p) w
  | CallData i role => run (data self i role) w
  end.

(** The model object of a fresh instance: its root is the first object
    allocated. *)
Definition fresh_model : FileTreeModel := mkModel 0%nat.

(** The world after [FileTreeModel(root_path)] and then the calls [cs]. *)
Definition session (root_path : Path) (cs : list call) : World :=
  fold_left (fun w c => exec fresh_model c w) cs
            (run (FileTreeModel_init root_path) empty_world).

End Session.

(** ** Vocabulary of the statements *)

(** The object a freshly constructed child is. *)
Definition new_item (self : node_id) (p : Path) : FileTreeItem :=
  mkItem p (Some self) [] false.

(** The heap after [self] received one child per path of [ks]. *)
Definition materialized (self : node_id) (it : FileTreeItem) (ks : list Path)
    (l : bool) (h : list FileTreeItem) : list FileTreeItem :=
  <[self := mkItem (path it) (parent_item it)
                   (child_items it ++ seq (length h) (length ks)) l]>
    (h ++ List.map (new_item self) ks).

(** The child paths that pass the test of [load_children]. *)
Definition kept (ps : list Path) : list Path :=
  List.filter (fun q => shown (name q)) ps.

(** The body of the loop of [load_children]. *)
Definition load_body (self : node_id) (child_path : Path) : M unit :=
  if shown (name child_path) then
    c <- FileTreeItem_init child_path (Some self) ;;
    append_child self c
  else ret tt.

(** The node an address passed as parent denotes. *)
Definition target (self : FileTreeModel) (pa : QModelIndex) : option node_id :=
  if isValid pa then ix_pointer pa else Some (root_item self).

(** The address under which the adapter hands out a node: none for the
    root, its row and column 0 otherwise. *)
Definition address_of (self : FileTreeModel) (n : node_id) : M QModelIndex :=
  if bool_decide (n = root_item self) then ret QModelIndex_null
  else r <- row n ;; ret (createIndex r 0 n).

(** The entry names of the children of a node, in row order. *)
Definition child_names (h : list FileTreeItem) (n : node_id) : list string :=
  match h !! n with
  | Some it => omap (fun c => (fun ic => name (path ic)) <$> h !! c) (child_items it)
  | None => []
  end.

(** Order of entry names under the flavour's case normalisation. *)
Definition name_le (normcase : string -> string) (a b : string) : Prop :=
  String.leb (normcase a) (normcase b) = true.

(** Is the entry a directory, as [stat] sees it. *)
Definition is_directory (e : fs_entry) : bool :=
  match e with
  | Directory _ | UnreadableDirectory => true
  | Absent | RegularFile | StatFails _ => false
  end.

(** Is there nothing at the path: no entry, or a [stat] that fails
    because a component does not exist, is not a directory, or is longer
    than any name can be. *)
Definition missing (e : fs_entry) : bool :=
  match e with
  | Absent => true
  | StatFails errno =>
      (errno =? ENOENT) || (errno =? ENOTDIR) || (errno =? ENAMETOOLONG)
  | RegularFile | Directory _ | UnreadableDirectory => false
  end.

(** The entries the specification counts: those whose name does not start
    with the hidden marker and is not in the denylist. Written after the
    words of the specification, to be compared with [shown]. *)
Definition counted_by_spec (n : string) : bool :=
  match n with
  | String "." _ => false
  | _ =>
      negb (String.eqb n "__pycache__" || String.eqb n "node_modules"
            || String.eqb n "venv")
  end.

(** Can the entry be enumerated. *)
Definition listing (e : fs_entry) : option (list string) :=
  match e with
  | Directory names => Some names
  | _ => None
  end.

(** Shape of the heaps a model instance goes through. *)
Record wf (h : list FileTreeItem) : Prop := mkWf {
  wf_root : forall n it, h !! n = Some it ->
      (parent_item it = None <-> n = 0%nat);
  wf_children : forall n it c, h !! n = Some it -> c ∈ child_items it ->
      exists ic, h !! c = Some ic /\ parent_item ic = Some n;
  wf_parent : forall n it p, h !! n = Some it -> parent_item it = Some p ->
      exists ip, h !! p = Some ip /\ n ∈ child_items ip;
  wf_nodup : forall n it, h !! n = Some it -> NoDup (child_items it);
  wf_lazy : forall n it, h !! n = Some it -> loaded it = false ->
      child_items it = []
}.

(** Stable insertion sort of entry names, the order [sorted] induces on
    the children of one directory. *)
Fixpoint insort_name (normcase : string -> string) (x : string) (l : list string)
  : list string :=
  match l with
  | [] => [x]
  | y :: l' =>
      if String.ltb (normcase x) (normcase y) then x :: l
      else y :: insort_name normcase x l'
  end.

Definition sorted_names (normcase : string -> string) (l : list string) : list string :=
  fold_left (fun acc x => insort_name normcase x acc) l [].

(** The two heaps around a call that materializes [self]. *)
Definition heap_step (self : node_id) (h h' : list FileTreeItem) : Prop :=
  h' = h \/
  exists it ks, h !! self = Some it /\ loaded it = false /\
                h' = materialized self it ks true h.

(** The errors of the operating system, which [is_dir] and [iterdir]
    report. *)
Definition os_error (e : exn) : bool :=
  match e with
  | PermissionError | FileNotFoundError | NotADirectoryError | OSError _ => true
  | ValueError | AttributeError => false
  end.

(** An error that materializing the unloaded node [it] raises in the
    world [w]: the one [is_dir] raises for the [stat] of its path, or,
    after a [stat] that saw a directory, the one its enumeration fails
    with. *)
Definition raised_by_file_system (fs : FileSystem) (w : World)
    (it : FileTreeItem) (e : exn) : Prop :=
  loaded it = false /\
  (stat_is_dir (fs (now w) (path it)) = Raise e \/
   (stat_is_dir (fs (now w) (path it)) = Ok true /\
    scandir (fs (S (now w)) (path it)) = Raise e)).

(** What a call that materializes through the address [pa] may add to
    the log of system calls: nothing, or one [stat] of the path of the
    node the address denotes, followed by one enumeration of it when the
    [stat] saw a directory. *)
Definition one_level_io (fs : FileSystem) (model : FileTreeModel)
    (pa : QModelIndex) (w w' : World) : Prop :=
  w' = w \/
  exists p it,
    target model pa = Some p /\ heap w !! p = Some it /\ loaded it = false /\
    syscalls w' =
      syscalls w ++
        SysStat (path it) ::
        (if is_directory (fs (now w) (path it)) then [SysScandir (path it)] else []).

(** ** Concrete file systems *)

(** The POSIX flavour: names compare as they are. *)
Definition posix (s : string) : string := s.

Definition project : Path := ["srv"; "project"].

(** A project directory with a hidden directory, a regular file named
    like a virtual environment, one sub-directory and one file. *)
Definition fs_project : FileSystem := fun _ p =>
  if bool_decide (p = project) then Directory ["src"; "README.md"; ".git"; "venv"]
  else if bool_decide (p = joinpath project "src") then Directory ["main.txt"]
  else if bool_decide (p = joinpath project ".git") then Directory []
  else if bool_decide (p = joinpath project "README.md") then RegularFile
  else if bool_decide (p = joinpath project "venv") then RegularFile
  else if bool_decide (p = joinpath (joinpath project "src") "main.txt") then RegularFile
  else Absent.

(** A directory the user may not list. *)
Definition fs_locked : FileSystem := fun _ p =>
  if bool_decide (p = project) then UnreadableDirectory else Absent.

(** A directory removed between the [stat] and the enumeration. *)
Definition fs_vanishing : FileSystem := fun t p =>
  if bool_decide (p = project) then
    match t with O => Directory ["a"] | S _ => Absent end
  else Absent.

(** Nothing anywhere. *)
Definition fs_empty : FileSystem := fun _ _ => Absent.

(** A path with a component longer than any name can be: there is no such
    entry, and the [stat] fails with "name too long". *)
Definition fs_too_long : FileSystem := fun _ _ => StatFails ENAMETOOLONG.

(** A listable directory that may not be searched: the [stat] of each of
    its entries is denied. *)
Definition fs_unsearchable : FileSystem := fun _ p =>
  if bool_decide (p = project) then Directory ["f"; "sub"]
  else StatFails EACCES.

(** ** theme_manager.py *)

(** [QColor(r, g, b)] *)
Record QColor := mkColor { red : Z; green : Z; blue : Z }.

Module QPalette.

Inductive ColorGroup := Active | Disabled | Inactive.

(** The eight roles the themes set, and the other roles of Qt. *)
Inductive ColorRole :=
| Window | WindowText | Base | AlternateBase
| Text | Button | ButtonText | Link
| Other (n : nat).

#[global] Instance ColorRole_eq_dec : EqDecision ColorRole.
Proof. solve_decision. Defined.

(** A palette: one colour for each group and role. *)
Definition t : Type := ColorGroup -> ColorRole -> QColor.

(** [palette.setColor(role, color)]: the role in all three groups. *)
Definition setColor (p : t) (role : ColorRole) (c : QColor) : t :=
  fun g r => if decide (r = role) then c else p g r.

End QPalette.

(** The state the methods of [ThemeManager] act on: the attribute of the
    manager and the palette of the application. *)
Record ThemeManager := mkTheme {
  current_theme : string;
  application_palette : QPalette.t
}.

Section Theme.

(** [QPalette()], the palette a theme starts from. *)
Variable default_palette : QPalette.t.

(** [ThemeManager(parent)]: the palette of the application is untouched. *)
Definition ThemeManager_init (app : QPalette.t) : ThemeManager :=
  mkTheme "light" app.

Definition set_light_theme (self : ThemeManager) : ThemeManager :=
  let palette := default_palette in
  let palette := QPalette.setColor palette QPalette.Window (mkColor 240 240 240) in
  let palette := QPalette.setColor palette QPalette.WindowText (mkColor 0 0 0) in
  let palette := QPalette.setColor palette QPalette.Base (mkColor 255 255 255) in
  let palette := QPalette.setColor palette QPalette.AlternateBase (mkColor 245 245 245) in
  let palette := QPalette.setColor palette QPalette.Text (mkColor 0 0 0) in
  let palette := QPalette.setColor palette QPalette.Button (mkColor 240 240 240) in
  let palette := QPalette.setColor palette QPalette.ButtonText (mkColor 0 0 0) in
  let palette := QPalette.setColor palette QPalette.Link (mkColor 0 100 200) in
  mkTheme "light" palette.

Definition set_dark_theme (self : ThemeManager) : ThemeManager :=
  let palette := default_palette in
  let palette := QPalette.setColor palette QPalette.Window (mkColor 53 53 53) in
  let palette := QPalette.setColor palette QPalette.WindowText (mkColor 255 255 255) in
  let palette := QPalette.setColor palette QPalette.Base (mkColor 35 35 35) in
  let palette := QPalette.setColor palette QPalette.AlternateBase (mkColor 45 45 45) in
  let palette := QPalette.setColor palette QPalette.Text (mkColor 255 255 255) in
  let palette := QPalette.setColor palette QPalette.Button (mkColor 53 53 53) in
  let palette := QPalette.setColor palette QPalette.ButtonText (mkColor 255 255 255) in
  let palette := QPalette.setColor palette QPalette.Link (mkColor 42 130 218) in
  mkTheme "dark" palette.

Definition toggle_theme (self : ThemeManager) : ThemeManager :=
  if String.eqb (current_theme self) "light" then set_dark_theme self
  else set_light_theme self.

Inductive theme_op := SetLight | SetDark | Toggle.

Definition apply_theme_op (self : ThemeManager) (o : theme_op) : ThemeManager :=
  match o with
  | SetLight => set_light_theme self
  | SetDark => set_dark_theme self
  | Toggle => toggle_theme self
  end.

End Theme.

(** ** main_window.py *)

(** The attributes of [MainWindow] its handlers read or write. The
    current tree model is kept as the world of its objects; [generation]
    counts the models created before it. A message box shown is recorded
    by its text. *)
Record MainWindow := mkWindow {
  theme_manager : ThemeManager;
  file_tree_model : World;
  generation : nat;
  status_message : string;
  prompt_text : string;
  current_project_path : option (list string);
  warnings : list string
}.

(** What can happen to the window: the answer of a directory dialog
    (the empty string when it is cancelled), an edit of the prompt, a click
    on the button, a choice in the theme menu, a query of the tree view. *)
Inductive event :=
| NewProject (directory : string)
| OpenProject (directory : string)
| PromptEdited (text : string)
| GenerateClicked
| LightChosen
| DarkChosen
| ViewCall (c : call).

(** Has a dialog of the history been answered with a directory. *)
Definition project_chosen (evs : list event) : bool :=
  existsb (fun e => match e with
                    | NewProject d | OpenProject d => negb (String.eqb d "")
                    | _ => false
                    end) evs.

Section Window.

Variable normcase : string -> string.

(** The file system each model instance lives with. *)
Variable fs_of : nat -> FileSystem.

(** [Path(directory)] and [Path.home()]. *)
Variable Path_of : string -> list string.
Variable home : list string.

Variable default_palette : QPalette.t.

(** [MainWindow()]: the tree on the home directory, the status "Ready",
    the light theme. *)
Definition MainWindow_init (app : QPalette.t) : MainWindow :=
  mkWindow (set_light_theme default_palette (ThemeManager_init app))
           (run (FileTreeModel_init home) empty_world)
           0%nat "Ready" "" None [].

Definition new_project (directory : string) (self : MainWindow) : MainWindow :=
  if negb (String.eqb directory "") then
    mkWindow (theme_manager self)
             (run (FileTreeModel_init (Path_of directory)) empty_world)
             (S (generation self))
             ("Created new project in " ++ directory)
             (prompt_text self)
             (Some (Path_of directory))
             (warnings self)
  else self.

Definition open_project (directory : string) (self : MainWindow) : MainWindow :=
  if negb (String.eqb directory "") then
    mkWindow (theme_manager self)
             (run (FileTreeModel_init (Path_of directory)) empty_world)
             (S (generation self))
             ("Opened project: " ++ directory)
             (prompt_text self)
             (Some (Path_of directory))
             (warnings self)
  else self.

(** [QMessageBox.warning(self, "Warning", text)] *)
Definition warn (text : string) (self : MainWindow) : MainWindow :=
  mkWindow (theme_manager self) (file_tree_model self) (generation self)
           (status_message self) (prompt_text self) (current_project_path self)
           (warnings self ++ [text]).

Definition generate_code (self : MainWindow) : MainWindow :=
  match current_project_path self with
  | None => warn "Please create or open a project first." self
  | Some _ =>
      if String.eqb (prompt_text self) "" then
        warn "Please enter a prompt first." self
      else
        mkWindow (theme_manager self) (file_tree_model self) (generation self)
                 "Generating code..." (prompt_text self)
                 (current_project_path self) (warnings self)
  end.

Definition handle (self : MainWindow) (e : event) : MainWindow :=
  match e with
  | NewProject d => new_project d self
  | OpenProject d => open_project d self
  | PromptEdited text =>
      mkWindow (theme_manager self) (file_tree_model self) (generation self)
               (status_message self) text (current_project_path self)
               (warnings self)
  | GenerateClicked => generate_code self
  | LightChosen =>
      mkWindow (set_light_theme default_palette (theme_manager self))
               (file_tree_model self) (generation self) (status_message self)
               (prompt_text self) (current_project_path self) (warnings self)
  | DarkChosen =>
      mkWindow (set_dark_theme default_palette (theme_manager self))
               (file_tree_model self) (generation self) (status_message self)
               (prompt_text self) (current_project_path self) (warnings self)
  | ViewCall c =>
      mkWindow (theme_manager self)
               (exec normcase (fs_of (generation self)) fresh_model c
                     (file_tree_model self))
               (generation self) (status_message self) (prompt_text self)
               (current_project_path self) (warnings self)
  end.

(** The root the tree of the window is built on. *)
Definition tree_root (self : MainWindow) : list string :=
  match current_project_path self with
  | Some p => p
  | None => home
  end.

End Window.

(** ** Basic facts on the heap primitives *)

Lemma item_eta (it : FileTreeItem) :
  mkItem (path it) (parent_item it) (child_items it) (loaded it) = it.
Proof. destruct it; reflexivity. Qed.

Lemma bind_ok {A B} (m : M A) (k : A -> M B) w a w' :
  m w = (Ok a, w') -> bind m k w = k a w'.
Proof. intros H. unfold bind. rewrite H. reflexivity. Qed.

Lemma bind_raise {A B} (m : M A) (k : A -> M B) w e w' :
  m w = (Raise e, w') -> bind m k w = (Raise e, w').
Proof. intros H. unfold bind. rewrite H. reflexivity. Qed.

Lemma get_item_ok n w it :
  heap w !! n = Some it -> get_item n w = (Ok it, w).
Proof. intros H. unfold get_item. rewrite H. reflexivity. Qed.

Lemma get_item_none n w :
  heap w !! n = None -> get_item n w = (Raise AttributeError, w).
Proof. intros H. unfold get_item. rewrite H. reflexivity. Qed.

Lemma materialized_nil self it h :
  h !! self = Some it -> materialized self it [] (loaded it) h = h.
Proof.
  intros H. unfold materialized. simpl.
  rewrite !app_nil_r, item_eta. apply list_insert_id, H.
Qed.

(** The loop of [load_children] as one heap update. *)
Lemma for_each_load_body self ps :
  forall h sc it, h !! self = Some it ->
    for_each ps (load_body self) (mkWorld h sc)
    = (Ok tt, mkWorld (materialized self it (kept ps) (loaded it) h) sc).
Proof.
  induction ps as [|q ps IH]; intros h sc it Hself.
  - simpl. unfold ret. rewrite materialized_nil by exact Hself. reflexivity.
  - pose proof (lookup_lt_Some _ _ _ Hself) as Hlt.
    simpl for_each. unfold load_body at 1, kept. simpl List.filter.
    fold (kept ps). destruct (shown (name q)) eqn:Hq.
    + set (it' := mkItem (path it) (parent_item it)
                         (child_items it ++ [length h]) (loaded it)).
      set (h1 := <[self := it']> (h ++ [new_item self q])).
      assert (Hstep : bind (c <- FileTreeItem_init q (Some self) ;; append_child self c)
                        (fun _ => for_each ps (load_body self)) (mkWorld h sc)
                      = for_each ps (load_body self) (mkWorld h1 sc)).
      { unfold bind, FileTreeItem_init, append_child, bind, get_item, set_item.
        simpl. rewrite (lookup_app_l_Some _ _ _ _ Hself). reflexivity. }
      rewrite Hstep.
      assert (Hself1 : h1 !! self = Some it').
      { unfold h1. apply list_lookup_insert_eq. rewrite length_app. simpl. lia. }
      rewrite (IH h1 sc it' Hself1). f_equal. f_equal.
      unfold materialized, h1, it'. simpl.
      rewrite length_insert, length_app. simpl.
      rewrite <- insert_app_l by (rewrite length_app; simpl; lia).
      rewrite list_insert_insert_eq.
      rewrite <- !app_assoc. simpl.
      replace (length h + 1)%nat with (S (length h)) by lia.
      reflexivity.
    + unfold bind at 1. unfold ret at 1. apply IH, Hself.
Qed.

(** ** What one call of [load_children] does *)

Section Store.

Variable normcase : string -> string.
Variable fs : FileSystem.

Lemma load_children_none self w :
  heap w !! self = None ->
  load_children normcase fs self w = (Raise AttributeError, w).
Proof.
  intros H. unfold load_children. apply bind_raise, get_item_none, H.
Qed.

Lemma load_children_loaded self w it :
  heap w !! self = Some it -> loaded it = true ->
  load_children normcase fs self w = (Ok tt, w).
Proof.
  intros H Hl. unfold load_children.
  rewrite (bind_ok _ _ _ _ _ (get_item_ok _ _ _ H)), Hl. reflexivity.
Qed.

(** An unloaded node: one [stat], whose error is raised; then for a
    directory one enumeration, whose failure leaves the heap as it was. *)
Lemma load_children_unloaded self w it :
  heap w !! self = Some it -> loaded it = false ->
  load_children normcase fs self w =
    let w1 := log (SysStat (path it)) w in
    match stat_is_dir (fs (now w) (path it)) with
    | Raise e => (Raise e, w1)
    | Ok true =>
        let w2 := log (SysScandir (path it)) w1 in
        match scandir (fs (now w1) (path it)) with
        | Ok names =>
            (Ok tt,
             mkWorld (materialized self it
                        (kept (sorted normcase (List.map (joinpath (path it)) names)))
                        true (heap w))
                     (syscalls w2))
        | Raise e => (Raise e, w2)
        end
    | Ok false =>
        (Ok tt, mkWorld (materialized self it [] true (heap w)) (syscalls w1))
    end.
Proof.
  intros H Hl. pose proof (lookup_lt_Some _ _ _ H) as Hlt.
  unfold load_children.
  rewrite (bind_ok _ _ _ _ _ (get_item_ok _ _ _ H)), Hl.
  cbv zeta. unfold bind at 1. unfold is_dir at 1.
  destruct (stat_is_dir (fs (now w) (path it))) as [[|]|e]; [| |reflexivity].
  - unfold bind at 1. unfold bind at 1. unfold iterdir at 1.
    destruct (scandir (fs (now (log (SysStat (path it)) w)) (path it)))
      as [names|e]; [|reflexivity].
    change (fun child_path : Path =>
              if shown (name child_path)
              then c <- FileTreeItem_init child_path (Some self);;
                   append_child self c
              else ret tt) with (load_body self).
    unfold log at 1. simpl heap. simpl syscalls.
    rewrite (for_each_load_body self _ _ _ it H).
    unfold set_loaded, bind, get_item, set_item. simpl.
    unfold materialized at 1.
    rewrite list_lookup_insert_eq
      by (rewrite length_app; lia).
    simpl. unfold materialized. rewrite list_insert_insert_eq. reflexivity.
  - unfold bind at 1. unfold ret at 1.
    unfold set_loaded, bind, get_item, set_item, log. simpl.
    rewrite H. unfold materialized. simpl. rewrite !app_nil_r. reflexivity.
Qed.

Lemma load_children_heap_step self w :
  heap_step self (heap w) (heap (run (load_children normcase fs self) w)).
Proof.
  unfold run. destruct (heap w !! self) as [it|] eqn:H.
  - destruct (loaded it) eqn:Hl.
    + rewrite (load_children_loaded _ _ _ H Hl). left. reflexivity.
    + rewrite (load_children_unloaded _ _ _ H Hl). cbv zeta.
      destruct (stat_is_dir _) as [[|]|e]; [| |left; reflexivity].
      * destruct (scandir _); simpl; [|left; reflexivity].
        right. eauto.
      * right. simpl. eauto.
  - rewrite (load_children_none _ _ H). left. reflexivity.
Qed.

Lemma load_children_raise self w e w' :
  load_children normcase fs self w = (Raise e, w') -> heap w' = heap w.
Proof.
  destruct (heap w !! self) as [it|] eqn:H.
  - destruct (loaded it) eqn:Hl.
    + rewrite (load_children_loaded _ _ _ H Hl). congruence.
    + rewrite (load_children_unloaded _ _ _ H Hl). cbv zeta.
      destruct (stat_is_dir _) as [[|]|e0].
      * destruct (scandir _); intros [= <- <-]; reflexivity.
      * intros [=].
      * intros [= <- <-]. reflexivity.
  - rewrite (load_children_none _ _ H). intros [= <- <-]. reflexivity.
Qed.

End Store.

(** ** The heap after a materialization *)

Section Materialized.

Variables (self : node_id) (it : FileTreeItem) (ks : list Path) (l : bool).
Variable h : list FileTreeItem.
Hypothesis Hself : h !! self = Some it.

Lemma materialized_length :
  length (materialized self it ks l h) = (length h + length ks)%nat.
Proof.
  unfold materialized. rewrite length_insert, length_app, length_map. reflexivity.
Qed.

Lemma materialized_self :
  materialized self it ks l h !! self
  = Some (mkItem (path it) (parent_item it)
                 (child_items it ++ seq (length h) (length ks)) l).
Proof.
  unfold materialized. apply list_lookup_insert_eq.
  rewrite length_app. apply lookup_lt_Some in Hself. lia.
Qed.

Lemma materialized_old n :
  n <> self -> (n < length h)%nat -> materialized self it ks l h !! n = h !! n.
Proof.
  intros Hn Hlt. unfold materialized.
  rewrite list_lookup_insert_ne by congruence.
  apply lookup_app_l, Hlt.
Qed.

Lemma materialized_new n :
  (length h <= n < length h + length ks)%nat ->
  exists q, ks !! (n - length h)%nat = Some q /\
            materialized self it ks l h !! n = Some (new_item self q).
Proof.
  intros [Hge Hlt]. apply lookup_lt_Some in Hself as Hs.
  destruct (lookup_lt_is_Some_2 ks (n - length h)%nat) as [q Hq]; [lia|].
  exists q. split; [exact Hq|]. unfold materialized.
  rewrite list_lookup_insert_ne by lia.
  rewrite lookup_app_r by lia.
  rewrite list_lookup_fmap, Hq. reflexivity.
Qed.

Lemma materialized_inv n x :
  materialized self it ks l h !! n = Some x ->
  (n = self /\ x = mkItem (path it) (parent_item it)
                          (child_items it ++ seq (length h) (length ks)) l)
  \/ (n <> self /\ h !! n = Some x)
  \/ ((length h <= n < length h + length ks)%nat /\
      exists q, ks !! (n - length h)%nat = Some q /\ x = new_item self q).
Proof.
  intros Hx. destruct (decide (n = self)) as [->|Hne].
  - left. rewrite materialized_self in Hx. split; congruence.
  - right. destruct (decide (n < length h)%nat) as [Hlt|Hge].
    + left. rewrite materialized_old in Hx by assumption. auto.
    + right. pose proof (lookup_lt_Some _ _ _ Hx) as Hb.
      rewrite materialized_length in Hb.
      assert (Hr : (length h <= n < length h + length ks)%nat) by lia.
      split; [exact Hr|].
      destruct (materialized_new n Hr) as (q & Hq & Hq').
      exists q. split; [exact Hq|]. congruence.
Qed.

(** Objects already there keep their parent and lose no child. *)
Lemma materialized_lift n x :
  h !! n = Some x ->
  exists x', materialized self it ks l h !! n = Some x' /\
             parent_item x' = parent_item x /\
             (forall c, c ∈ child_items x -> c ∈ child_items x').
Proof.
  intros Hx. destruct (decide (n = self)) as [->|Hne].
  - rewrite Hself in Hx. injection Hx as <-.
    eexists. split; [apply materialized_self|]. simpl. split; [reflexivity|].
    intros c Hc. apply elem_of_app. left. exact Hc.
  - exists x. rewrite materialized_old; eauto using lookup_lt_Some.
Qed.

End Materialized.

Lemma wf_materialized self it ks h :
  wf h -> h !! self = Some it -> loaded it = false ->
  wf (materialized self it ks true h).
Proof.
  intros W H Hl. pose proof (wf_lazy _ W _ _ H Hl) as Hnil.
  pose proof (lookup_lt_Some _ _ _ H) as Hlt.
  split.
  - intros n x Hx.
    destruct (materialized_inv _ _ _ _ _ H _ _ Hx)
      as [[-> ->]|[[Hne Hx']|[Hr (q & _ & ->)]]]; simpl.
    + apply (wf_root _ W _ _ H).
    + apply (wf_root _ W _ _ Hx').
    + split; [discriminate|lia].
  - intros n x c Hx Hc.
    destruct (materialized_inv _ _ _ _ _ H _ _ Hx)
      as [[-> ->]|[[Hne Hx']|[Hr (q & _ & ->)]]]; simpl in Hc.
    + rewrite Hnil in Hc. simpl in Hc. apply elem_of_seq in Hc.
      destruct (materialized_new self it ks true h H c) as (q & _ & Hq); [lia|].
      exists (new_item self q). split; [exact Hq|reflexivity].
    + destruct (wf_children _ W _ _ _ Hx' Hc) as (ic & Hic & Hp).
      destruct (materialized_lift self it ks true h H _ _ Hic) as (x' & Hx1 & Hp1 & _).
      exists x'. split; [exact Hx1|congruence].
    + inversion Hc.
  - intros n x p Hx Hp.
    destruct (materialized_inv _ _ _ _ _ H _ _ Hx)
      as [[-> ->]|[[Hne Hx']|[Hr (q & _ & ->)]]]; simpl in Hp.
    + destruct (wf_parent _ W _ _ _ H Hp) as (ip & Hip & Hin).
      destruct (materialized_lift self it ks true h H _ _ Hip) as (x' & Hx1 & _ & Hc1).
      exists x'. split; [exact Hx1|]. apply Hc1, Hin.
    + destruct (wf_parent _ W _ _ _ Hx' Hp) as (ip & Hip & Hin).
      destruct (materialized_lift self it ks true h H _ _ Hip) as (x' & Hx1 & _ & Hc1).
      exists x'. split; [exact Hx1|]. apply Hc1, Hin.
    + injection Hp as <-. eexists. split; [apply (materialized_self _ _ _ _ _ H)|].
      simpl. apply elem_of_app. right. apply elem_of_seq. lia.
  - intros n x Hx.
    destruct (materialized_inv _ _ _ _ _ H _ _ Hx)
      as [[-> ->]|[[Hne Hx']|[Hr (q & _ & ->)]]]; simpl.
    + rewrite Hnil. simpl. apply NoDup_seq.
    + apply (wf_nodup _ W _ _ Hx').
    + apply NoDup_nil_2.
  - intros n x Hx Hlx.
    destruct (materialized_inv _ _ _ _ _ H _ _ Hx)
      as [[-> ->]|[[Hne Hx']|[Hr (q & _ & ->)]]]; simpl in *.
    + discriminate.
    + apply (wf_lazy _ W _ _ Hx' Hlx).
    + reflexivity.
Qed.

Lemma wf_heap_step self h h' : wf h -> heap_step self h h' -> wf h'.
Proof.
  intros W [->|(it & ks & H & Hl & ->)]; [exact W|].
  apply wf_materialized; assumption.
Qed.

(** ** The world each call leaves *)

Ltac run_cases :=
  unfold run;
  repeat (unfold bind, ret, raise, get_item, internalPointer in *; simpl in *;
          simplify_eq; try reflexivity; try case_match).

Section Adapter.

Variable normcase : string -> string.
Variable fs : FileSystem.
Variable self : FileTreeModel.

Lemma child_world n r w : run (child n r) w = w.
Proof. unfold child. run_cases. Qed.

Lemma row_world n w : run (row n) w = w.
Proof. unfold row. run_cases. Qed.

Lemma parent_world i w : run (parent self i) w = w.
Proof. unfold parent, row. run_cases. Qed.

Lemma data_world i role w : run (data self i role) w = w.
Proof. unfold data. run_cases. Qed.

Lemma columnCount_world pa w : run (columnCount self pa) w = w.
Proof. reflexivity. Qed.

Lemma child_count_world n w :
  run (child_count normcase fs n) w = run (load_children normcase fs n) w.
Proof.
  unfold child_count, run, bind at 1.
  destruct (load_children normcase fs n w) as [[[]|e] w']; [|reflexivity].
  run_cases.
Qed.

(** [rowCount] by cases on the address it is given. *)
Lemma rowCount_eq pa w :
  rowCount normcase fs self pa w =
    if ix_column pa >? 0 then (Ok 0, w)
    else match target self pa with
         | Some n => child_count normcase fs n w
         | None => (Raise AttributeError, w)
         end.
Proof.
  unfold rowCount, target. destruct (ix_column pa >? 0); [reflexivity|].
  destruct (isValid pa); simpl; [|reflexivity].
  unfold internalPointer. destruct (ix_pointer pa); reflexivity.
Qed.

Lemma rowCount_world pa w :
  run (rowCount normcase fs self pa) w = w \/
  exists n, target self pa = Some n /\
            run (rowCount normcase fs self pa) w
            = run (load_children normcase fs n) w.
Proof.
  unfold run. rewrite rowCount_eq.
  destruct (ix_column pa >? 0); [left; reflexivity|].
  destruct (target self pa) as [n|]; [|left; reflexivity].
  right. exists n. split; [reflexivity|]. exact (child_count_world n w).
Qed.

Lemma hasIndex_world r c pa w :
  run (hasIndex normcase fs self r c pa) w = w \/
  run (hasIndex normcase fs self r c pa) w = run (rowCount normcase fs self pa) w.
Proof.
  unfold hasIndex. destruct ((r <? 0) || (c <? 0)); [left; reflexivity|].
  right. unfold run, bind at 1.
  destruct (rowCount normcase fs self pa w) as [[n|e] w']; [|reflexivity].
  destruct (r <? n); reflexivity.
Qed.

Lemma index_hasIndex_world r c pa w :
  run (index normcase fs self r c pa) w = run (hasIndex normcase fs self r c pa) w.
Proof.
  unfold index, run, bind at 1.
  destruct (hasIndex normcase fs self r c pa w) as [[b|e] w']; [|reflexivity].
  destruct b; simpl; [|reflexivity].
  pose proof (child_world) as Hc. unfold run in Hc.
  unfold bind at 1.
  destruct (isValid pa); simpl.
  - unfold internalPointer. destruct (ix_pointer pa) as [p|]; simpl; [|reflexivity].
    unfold bind. specialize (Hc p r w').
    destruct (child p r w') as [[[ci|]|e] w'']; simpl in *; congruence.
  - unfold ret at 1. unfold bind. specialize (Hc (root_item self) r w').
    destruct (child (root_item self) r w') as [[[ci|]|e] w'']; simpl in *; congruence.
Qed.

Lemma index_world r c pa w :
  run (index normcase fs self r c pa) w = w \/
  exists n, target self pa = Some n /\
            run (index normcase fs self r c pa) w
            = run (load_children normcase fs n) w.
Proof.
  rewrite index_hasIndex_world.
  destruct (hasIndex_world r c pa w) as [->| ->]; [left; reflexivity|].
  apply rowCount_world.
Qed.

Lemma exec_world c w :
  exec normcase fs self c w = w \/
  exists n, exec normcase fs self c w = run (load_children normcase fs n) w.
Proof.
  destruct c as [r c pa|i|pa|pa|i role]; simpl.
  - destruct (index_world r c pa w) as [H|(n & _ & H)]; eauto.
  - left. apply parent_world.
  - destruct (rowCount_world pa w) as [H|(n & _ & H)]; eauto.
  - left. reflexivity.
  - left. apply data_world.
Qed.

Lemma exec_heap_step c w :
  exists n, heap_step n (heap w) (heap (exec normcase fs self c w)).
Proof.
  destruct (exec_world c w) as [->|(n & ->)].
  - exists 0%nat. left. reflexivity.
  - exists n. apply load_children_heap_step.
Qed.

End Adapter.

Lemma wf_initial root_path :
  wf (heap (run (FileTreeModel_init root_path) empty_world)).
Proof.
  simpl. split.
  - intros [|n] it H; simpl in H; [|destruct n; discriminate].
    injection H as <-. simpl. split; reflexivity.
  - intros [|n] it c H Hc; simpl in H; [|destruct n; discriminate].
    injection H as <-. inversion Hc.
  - intros [|n] it p H Hp; simpl in H; [|destruct n; discriminate].
    injection H as <-. discriminate.
  - intros [|n] it H; simpl in H; [|destruct n; discriminate].
    injection H as <-. apply NoDup_nil_2.
  - intros [|n] it H _; simpl in H; [|destruct n; discriminate].
    injection H as <-. reflexivity.
Qed.

Lemma wf_fold normcase fs cs :
  forall w, wf (heap w) ->
    wf (heap (fold_left (fun w c => exec normcase fs fresh_model c w) cs w)).
Proof.
  induction cs as [|c cs IH]; intros w W; simpl; [exact W|].
  apply IH. destruct (exec_heap_step normcase fs fresh_model c w) as (n & Hn).
  eapply wf_heap_step; eassumption.
Qed.

Lemma session_wf normcase fs root_path cs :
  wf (heap (session normcase fs root_path cs)).
Proof. unfold session. apply wf_fold, wf_initial. Qed.

(** ** Order of the children of one directory *)

Lemma string_compare_refl s : String.compare s s = Eq.
Proof. apply String_as_OT.cmp_eq. reflexivity. Qed.

Lemma string_leb_total a b : String.leb a b = true \/ String.leb b a = true.
Proof. apply String.leb_total. Qed.

Lemma string_leb_trans a b c :
  String.leb a b = true -> String.leb b c = true -> String.leb a c = true.
Proof.
  unfold String.leb. intros Hab Hbc.
  destruct (String.compare a b) eqn:Eab; [| |discriminate].
  - apply String_as_OT.cmp_eq in Eab. subst b. exact Hbc.
  - destruct (String.compare b c) eqn:Ebc; [| |discriminate].
    + apply String_as_OT.cmp_eq in Ebc. subst c. rewrite Eab. reflexivity.
    + apply String_as_OT.cmp_lt in Eab, Ebc.
      pose proof (String_as_OT.lt_trans _ _ _ Eab Ebc) as Hac.
      apply String_as_OT.cmp_lt in Hac. unfold String_as_OT.cmp in Hac.
      rewrite Hac. reflexivity.
Qed.

Lemma string_ltb_leb a b : String.ltb a b = true -> String.leb a b = true.
Proof. unfold String.ltb, String.leb. destruct (String.compare a b); intros H; done. Qed.

Lemma string_nltb_leb a b : String.ltb a b = false -> String.leb b a = true.
Proof.
  unfold String.ltb, String.leb. rewrite (String.compare_antisym b a).
  destruct (String.compare a b); simpl; intros H; done.
Qed.

Lemma name_joinpath p n : name (joinpath p n) = n.
Proof. apply List.last_last. Qed.

Lemma filter_Forall {A} (f : A -> bool) (P : A -> Prop) l :
  Forall P l -> Forall P (List.filter f l).
Proof.
  induction 1 as [|x l Hx Hl IH]; simpl; [constructor|].
  destruct (f x); [constructor|]; assumption.
Qed.

Lemma filter_StronglySorted {A} (R : A -> A -> Prop) (f : A -> bool) l :
  StronglySorted R l -> StronglySorted R (List.filter f l).
Proof.
  induction 1 as [|x l Hl IH Hx]; simpl; [constructor|].
  destruct (f x); [|exact IH].
  constructor; [exact IH|]. apply filter_Forall, Hx.
Qed.

Lemma filter_Permutation_bool {A} (f : A -> bool) l l' :
  Permutation l l' -> Permutation (List.filter f l) (List.filter f l').
Proof.
  induction 1 as [|x l l' _ IH|x y l|l l' l'' _ IH1 _ IH2]; simpl.
  - constructor.
  - destruct (f x); [constructor|]; exact IH.
  - destruct (f x), (f y); try reflexivity. constructor.
  - etransitivity; eassumption.
Qed.

Lemma kept_joinpath p names :
  kept (List.map (joinpath p) names) = List.map (joinpath p) (List.filter shown names).
Proof.
  induction names as [|n names IH]; [reflexivity|].
  unfold kept in *. simpl. rewrite name_joinpath.
  destruct (shown n); simpl; rewrite IH; reflexivity.
Qed.

Section Ordering.

Variable normcase : string -> string.

Lemma path_ltb_joinpath p a b :
  path_ltb normcase (joinpath p a) (joinpath p b)
  = String.ltb (normcase a) (normcase b).
Proof.
  unfold path_ltb, joinpath. induction p as [|x p IH]; simpl.
  - unfold String.ltb. destruct (String.compare (normcase a) (normcase b)); reflexivity.
  - rewrite string_compare_refl. exact IH.
Qed.

Lemma insort_joinpath p x l :
  insort normcase (joinpath p x) (List.map (joinpath p) l)
  = List.map (joinpath p) (insort_name normcase x l).
Proof.
  induction l as [|y l IH]; [reflexivity|].
  simpl. rewrite path_ltb_joinpath.
  destruct (String.ltb (normcase x) (normcase y)); [reflexivity|].
  simpl. rewrite IH. reflexivity.
Qed.

Lemma sorted_joinpath p l :
  sorted normcase (List.map (joinpath p) l)
  = List.map (joinpath p) (sorted_names normcase l).
Proof.
  unfold sorted, sorted_names.
  change (@nil (list string)) with (List.map (joinpath p) []) at 1.
  generalize (@nil string) as acc.
  induction l as [|x l IH]; intros acc; [reflexivity|].
  simpl. rewrite insort_joinpath. apply IH.
Qed.

Lemma insort_name_Permutation x l :
  Permutation (insort_name normcase x l) (x :: l).
Proof.
  induction l as [|y l IH]; simpl; [reflexivity|].
  destruct (String.ltb (normcase x) (normcase y)); [reflexivity|].
  rewrite IH. constructor.
Qed.

Lemma sorted_names_Permutation l :
  Permutation (sorted_names normcase l) l.
Proof.
  unfold sorted_names.
  assert (H : forall acc,
             Permutation (fold_left (fun acc x => insort_name normcase x acc) l acc)
                         (acc ++ l)).
  { induction l as [|x l IH]; intros acc; simpl.
    - rewrite app_nil_r. reflexivity.
    - rewrite IH, insort_name_Permutation.
      change (x :: acc) with ([x] ++ acc).
      rewrite (Permutation_app_comm [x] acc), <- app_assoc. reflexivity. }
  apply (H []).
Qed.

Lemma insort_name_Forall (P : string -> Prop) x l :
  P x -> Forall P l -> Forall P (insort_name normcase x l).
Proof.
  intros Hx Hl. induction Hl as [|y l Hy Hl IH]; simpl.
  - constructor; [exact Hx|constructor].
  - destruct (String.ltb (normcase x) (normcase y)).
    + constructor; [exact Hx|]. constructor; assumption.
    + constructor; assumption.
Qed.

Lemma insort_name_StronglySorted x l :
  StronglySorted (name_le normcase) l ->
  StronglySorted (name_le normcase) (insort_name normcase x l).
Proof.
  induction 1 as [|y l Hl IH Hy]; simpl.
  - constructor; constructor.
  - destruct (String.ltb (normcase x) (normcase y)) eqn:Hxy.
    + constructor; [constructor; assumption|].
      apply string_ltb_leb in Hxy.
      constructor; [exact Hxy|].
      eapply Forall_impl; [exact Hy|].
      intros z Hz. unfold name_le in *. eapply string_leb_trans; eassumption.
    + constructor; [exact IH|].
      apply insort_name_Forall; [|exact Hy].
      apply string_nltb_leb, Hxy.
Qed.

Lemma sorted_names_StronglySorted l :
  StronglySorted (name_le normcase) (sorted_names normcase l).
Proof.
  unfold sorted_names.
  assert (H : forall acc, StronglySorted (name_le normcase) acc ->
             StronglySorted (name_le normcase)
               (fold_left (fun acc x => insort_name normcase x acc) l acc)).
  { induction l as [|x l IH]; intros acc Hacc; simpl; [exact Hacc|].
    apply IH, insort_name_StronglySorted, Hacc. }
  apply H. constructor.
Qed.

(** The surviving child paths of directory [p], named and in order. *)
Lemma kept_sorted p names :
  kept (sorted normcase (List.map (joinpath p) names))
  = List.map (joinpath p) (List.filter shown (sorted_names normcase names)).
Proof. rewrite sorted_joinpath. apply kept_joinpath. Qed.

Lemma kept_sorted_length p names :
  length (kept (sorted normcase (List.map (joinpath p) names)))
  = length (List.filter shown names).
Proof.
  rewrite kept_sorted, length_map.
  apply Permutation_length, filter_Permutation_bool, sorted_names_Permutation.
Qed.

End Ordering.

(** ** Consequences for single nodes *)

Lemma now_log c w : now (log c w) = S (now w).
Proof. unfold now, log. simpl. rewrite length_app. simpl. lia. Qed.

Lemma OSError_of_os errno : os_error (OSError_of errno) = true.
Proof. unfold OSError_of. repeat case_match; reflexivity. Qed.

Lemma is_directory_stat e : is_directory e = true -> stat_is_dir e = Ok true.
Proof. destruct e; simpl; intros H; try discriminate; reflexivity. Qed.

Lemma stat_is_dir_ok e b : stat_is_dir e = Ok b -> is_directory e = b.
Proof.
  destruct e; simpl; try (intros [= <-]; reflexivity).
  destruct (ignore_error errno); intros [= <-]. reflexivity.
Qed.

Lemma stat_is_dir_raise e err :
  stat_is_dir e = Raise err -> is_directory e = false /\ os_error err = true.
Proof.
  destruct e; simpl; try discriminate.
  destruct (ignore_error errno); [discriminate|].
  intros [= <-]. split; [reflexivity|apply OSError_of_os].
Qed.

Lemma scandir_raise e err : scandir e = Raise err -> os_error err = true.
Proof.
  destruct e; simpl; try discriminate; intros [= <-];
    try reflexivity. apply OSError_of_os.
Qed.

Lemma listing_none_scandir e :
  listing e = None -> exists err, scandir e = Raise err.
Proof. destruct e; simpl; try discriminate; eauto. Qed.

Section Outcomes.

Variable normcase : string -> string.
Variable fs : FileSystem.

Lemma load_children_dir self w it names :
  heap w !! self = Some it -> loaded it = false ->
  is_directory (fs (now w) (path it)) = true ->
  fs (S (now w)) (path it) = Directory names ->
  load_children normcase fs self w =
    (Ok tt,
     mkWorld (materialized self it
                (kept (sorted normcase (List.map (joinpath (path it)) names)))
                true (heap w))
             ((syscalls w ++ [SysStat (path it)]) ++ [SysScandir (path it)])).
Proof.
  intros H Hl Hd Hn. rewrite (load_children_unloaded _ _ _ _ _ H Hl).
  cbv zeta. rewrite (is_directory_stat _ Hd), now_log, Hn. reflexivity.
Qed.

Lemma load_children_not_dir self w it :
  heap w !! self = Some it -> loaded it = false ->
  stat_is_dir (fs (now w) (path it)) = Ok false ->
  load_children normcase fs self w =
    (Ok tt,
     mkWorld (<[self := mkItem (path it) (parent_item it) (child_items it) true]> (heap w))
             (syscalls w ++ [SysStat (path it)])).
Proof.
  intros H Hl Hd. rewrite (load_children_unloaded _ _ _ _ _ H Hl).
  cbv zeta. rewrite Hd. unfold materialized. simpl. rewrite !app_nil_r. reflexivity.
Qed.

Lemma load_children_stat_fails self w it e :
  heap w !! self = Some it -> loaded it = false ->
  stat_is_dir (fs (now w) (path it)) = Raise e ->
  load_children normcase fs self w =
    (Raise e, mkWorld (heap w) (syscalls w ++ [SysStat (path it)])).
Proof.
  intros H Hl Hd. rewrite (load_children_unloaded _ _ _ _ _ H Hl).
  cbv zeta. rewrite Hd. reflexivity.
Qed.

Lemma load_children_fails self w it :
  heap w !! self = Some it -> loaded it = false ->
  is_directory (fs (now w) (path it)) = true ->
  listing (fs (S (now w)) (path it)) = None ->
  exists e,
    load_children normcase fs self w =
      (Raise e,
       mkWorld (heap w) ((syscalls w ++ [SysStat (path it)]) ++ [SysScandir (path it)])).
Proof.
  intros H Hl Hd Hn. rewrite (load_children_unloaded _ _ _ _ _ H Hl).
  cbv zeta. rewrite (is_directory_stat _ Hd), now_log.
  destruct (listing_none_scandir _ Hn) as (e & ->). eexists; reflexivity.
Qed.

(** A call that returns leaves the node loaded. *)
Lemma load_children_ok_loaded self w w1 :
  load_children normcase fs self w = (Ok tt, w1) ->
  exists it1, heap w1 !! self = Some it1 /\ loaded it1 = true.
Proof.
  destruct (heap w !! self) as [it|] eqn:H.
  - destruct (loaded it) eqn:Hl.
    + rewrite (load_children_loaded _ _ _ _ _ H Hl). intros [= <-]. eauto.
    + rewrite (load_children_unloaded _ _ _ _ _ H Hl). cbv zeta.
      destruct (stat_is_dir _) as [[|]|e]; [| |discriminate].
      * destruct (scandir _); intros [= <-]. simpl.
        eexists. split; [apply (materialized_self _ _ _ _ _ H)|reflexivity].
      * intros [= <-]. simpl.
        eexists. split; [apply (materialized_self _ _ _ _ _ H)|reflexivity].
  - rewrite (load_children_none _ _ _ _ H). discriminate.
Qed.

Lemma child_count_loaded self w it :
  heap w !! self = Some it -> loaded it = true ->
  child_count normcase fs self w = (Ok (Z.of_nat (length (child_items it))), w).
Proof.
  intros H Hl. unfold child_count.
  rewrite (bind_ok _ _ _ _ _ (load_children_loaded _ _ _ _ _ H Hl)).
  rewrite (bind_ok _ _ _ _ _ (get_item_ok _ _ _ H)). reflexivity.
Qed.

Lemma child_count_raise self w e w' :
  load_children normcase fs self w = (Raise e, w') ->
  child_count normcase fs self w = (Raise e, w').
Proof. intros H. unfold child_count. apply bind_raise, H. Qed.

Lemma child_count_ok self w w1 it1 :
  load_children normcase fs self w = (Ok tt, w1) ->
  heap w1 !! self = Some it1 ->
  child_count normcase fs self w = (Ok (Z.of_nat (length (child_items it1))), w1).
Proof.
  intros H H1. unfold child_count. rewrite (bind_ok _ _ _ _ _ H).
  rewrite (bind_ok _ _ _ _ _ (get_item_ok _ _ _ H1)). reflexivity.
Qed.

End Outcomes.

Lemma child_eq self r w it :
  heap w !! self = Some it ->
  child self r w =
    (Ok (if (0 <=? r) && (r <? Z.of_nat (length (child_items it)))
         then child_items it !! Z.to_nat r else None), w).
Proof.
  intros H. unfold child. rewrite (bind_ok _ _ _ _ _ (get_item_ok _ _ _ H)).
  destruct (Z.ltb_spec r 0) as [Hneg|Hpos]; simpl.
  - destruct (Z.leb_spec 0 r); [lia|]. reflexivity.
  - destruct (Z.leb_spec 0 r); [|lia]. simpl.
    rewrite Z.geb_leb.
    destruct (Z.leb_spec (Z.of_nat (length (child_items it))) r) as [Hge|Hlt];
      destruct (Z.ltb_spec r (Z.of_nat (length (child_items it)))); try lia;
      [reflexivity|].
    destruct (child_items it !! Z.to_nat r); reflexivity.
Qed.

Lemma child_names_materialized self it ks h :
  h !! self = Some it -> child_items it = [] ->
  child_names (materialized self it ks true h) self = List.map name ks.
Proof.
  intros H Hnil. unfold child_names.
  rewrite (materialized_self _ _ _ _ _ H). simpl. rewrite Hnil. simpl.
  assert (G : forall ks2 j,
    (forall i q, ks2 !! i = Some q ->
       materialized self it ks true h !! (j + i)%nat = Some (new_item self q)) ->
    omap (fun c => (fun ic => name (path ic)) <$> materialized self it ks true h !! c)
         (seq j (length ks2)) = List.map name ks2).
  { induction ks2 as [|q ks2 IH]; intros j Hj; [reflexivity|].
    simpl. pose proof (Hj 0%nat q eq_refl) as H0.
    rewrite Nat.add_0_r in H0. rewrite H0. simpl. f_equal.
    apply IH. intros i q' Hq'. specialize (Hj (S i) q' Hq').
    rewrite Nat.add_succ_r in Hj. exact Hj. }
  apply G. intros i q Hq.
  destruct (materialized_new self it ks true h H (length h + i)%nat) as (q' & Hq1 & Hq2).
  { apply lookup_lt_Some in Hq. lia. }
  replace (length h + i - length h)%nat with i in Hq1 by lia.
  congruence.
Qed.

(** ** The model at work *)

(** The project directory shows its file and its sub-directory, in
    alphabetical order; the hidden and the ignored entries are left out. *)
Example project_root_rows :
  (rowCount posix fs_project fresh_model QModelIndex_null
     (session posix fs_project project [])).1 = Ok 2 /\
  (data fresh_model (createIndex 0 0 1%nat) DisplayRole
     (session posix fs_project project [CallRowCount QModelIndex_null])).1
  = Ok (Some "README.md") /\
  (data fresh_model (createIndex 1 0 2%nat) DisplayRole
     (session posix fs_project project [CallRowCount QModelIndex_null])).1
  = Ok (Some "src").
Proof. vm_compute. repeat split; reflexivity. Qed.

(** Expanding the sub-directory lists its one file; the file itself is a
    leaf, found so without an enumeration. *)
Example project_src_rows :
  (rowCount posix fs_project fresh_model (createIndex 1 0 2%nat)
     (session posix fs_project project [CallRowCount QModelIndex_null])).1 = Ok 1 /\
  syscalls (session posix fs_project project
              [CallRowCount QModelIndex_null; CallRowCount (createIndex 0 0 1%nat)])
  = [SysStat project; SysScandir project; SysStat (joinpath project "README.md")].
Proof. vm_compute. split; reflexivity. Qed.

(** * The claims *)

(** ** Enumeration failure *)

(** C1, as the code behaves: [load_children] has no handler. At the
    directory of the root, which the user may not list, it raises the
    permission error, [rowCount] on the root address raises it too, and the
    root is left unloaded. The same happens when the directory vanishes
    after the [stat]. *)
Lemma enumeration_failure_escapes :
  let w0 := session posix fs_locked project [] in
  (load_children posix fs_locked 0%nat w0).1 = Raise PermissionError /\
  (rowCount posix fs_locked fresh_model QModelIndex_null w0).1 = Raise PermissionError /\
  loaded <$> heap (run (rowCount posix fs_locked fresh_model QModelIndex_null) w0) !! 0%nat
    = Some false /\
  (rowCount posix fs_vanishing fresh_model QModelIndex_null
     (session posix fs_vanishing project [])).1 = Raise FileNotFoundError.
Proof. vm_compute. repeat split; reflexivity. Qed.

(** C1 (amended): when the path of an unloaded node is a directory at the
    [stat] and its enumeration fails, [load_children] raises the error of
    the enumeration, the heap is untouched (the node stays unloaded, its
    children as they were), and [child_count], [rowCount] and [index] on
    that node raise the same error. *)
Theorem enumeration_failure_propagates normcase fs self w it :
  heap w !! self = Some it -> loaded it = false ->
  is_directory (fs (now w) (path it)) = true ->
  listing (fs (S (now w)) (path it)) = None ->
  exists e w',
    load_children normcase fs self w = (Raise e, w') /\
    heap w' = heap w /\
    child_count normcase fs self w = (Raise e, w') /\
    (forall model pa, target model pa = Some self -> ix_column pa <= 0 ->
       rowCount normcase fs model pa w = (Raise e, w') /\
       forall r c, 0 <= r -> 0 <= c ->
         index normcase fs model r c pa w = (Raise e, w')).
Proof.
  intros H Hl Hd Hn.
  destruct (load_children_fails normcase fs _ _ _ H Hl Hd Hn) as (e & He).
  eexists e, _. split; [exact He|]. split; [reflexivity|].
  pose proof (child_count_raise _ _ _ _ _ _ He) as Hc.
  split; [exact Hc|].
  intros model pa Ht Hcol.
  assert (Hr : rowCount normcase fs model pa w
               = (Raise e, mkWorld (heap w)
                    ((syscalls w ++ [SysStat (path it)]) ++ [SysScandir (path it)]))).
  { rewrite rowCount_eq, Ht.
    destruct (Z.gtb_spec (ix_column pa) 0); [lia|exact Hc]. }
  split; [exact Hr|].
  intros r c Hr0 Hc0. unfold index. apply bind_raise.
  unfold hasIndex.
  destruct (Z.ltb_spec r 0); [lia|]. destruct (Z.ltb_spec c 0); [lia|].
  simpl. apply bind_raise, Hr.
Qed.

Lemma enumeration_failure_propagates_witness :
  exists e w',
    load_children posix fs_locked 0%nat (session posix fs_locked project [])
      = (Raise e, w') /\
    heap w' = heap (session posix fs_locked project []) /\
    child_count posix fs_locked 0%nat (session posix fs_locked project [])
      = (Raise e, w') /\
    (forall model pa, target model pa = Some 0%nat -> ix_column pa <= 0 ->
       rowCount posix fs_locked model pa (session posix fs_locked project [])
         = (Raise e, w') /\
       forall r c, 0 <= r -> 0 <= c ->
         index posix fs_locked model r c pa (session posix fs_locked project [])
           = (Raise e, w')).
Proof.
  apply (enumeration_failure_propagates posix fs_locked 0%nat
           (session posix fs_locked project [])
           (mkItem project None [] false)); reflexivity.
Defined.

(** ** Access to a child by row *)

(** C2, as the code behaves: [child] does not materialize. On the fresh
    root of a populated directory it differs from materializing first and
    then looking the row up. *)
Lemma child_skips_materialize :
  child 0%nat 0 (session posix fs_project project [])
  <> bind (load_children posix fs_project 0%nat) (fun _ => child 0%nat 0)
          (session posix fs_project project []).
Proof. vm_compute. discriminate. Qed.

(** C2 (amended): [child] leaves the world as it is (it never
    materializes) and answers from the current [child_items]: no child for
    a negative row or a row not below the length, the child at that
    position otherwise. *)
Theorem child_reads_current_children self r w it :
  heap w !! self = Some it ->
  (r < 0 \/ Z.of_nat (length (child_items it)) <= r ->
     child self r w = (Ok None, w)) /\
  (0 <= r < Z.of_nat (length (child_items it)) ->
     exists c, child_items it !! Z.to_nat r = Some c /\
               child self r w = (Ok (Some c), w)).
Proof.
  intros H. rewrite (child_eq _ r _ _ H). split.
  - intros Hr. destruct (Z.leb_spec 0 r); simpl; [|reflexivity].
    destruct (Z.ltb_spec r (Z.of_nat (length (child_items it)))); [lia|reflexivity].
  - intros Hr. destruct (Z.leb_spec 0 r); [|lia].
    destruct (Z.ltb_spec r (Z.of_nat (length (child_items it)))); [|lia]. simpl.
    destruct (lookup_lt_is_Some_2 (child_items it) (Z.to_nat r)) as [c Hc]; [lia|].
    exists c. rewrite Hc. split; reflexivity.
Qed.

Lemma child_reads_current_children_witness :
  (1 < 0 \/ Z.of_nat (length [1%nat; 2%nat]) <= 1 ->
     child 0%nat 1 (session posix fs_project project [CallRowCount QModelIndex_null])
     = (Ok None, session posix fs_project project [CallRowCount QModelIndex_null])) /\
  (0 <= 1 < Z.of_nat (length [1%nat; 2%nat]) ->
     exists c, [1%nat; 2%nat] !! Z.to_nat 1 = Some c /\
       child 0%nat 1 (session posix fs_project project [CallRowCount QModelIndex_null])
       = (Ok (Some c), session posix fs_project project [CallRowCount QModelIndex_null])).
Proof.
  apply (child_reads_current_children 0%nat 1
           (session posix fs_project project [CallRowCount QModelIndex_null])
           (mkItem project None [1%nat; 2%nat] true)).
  reflexivity.
Defined.

(** ** Row count of the root *)

Lemma ignored_eqb n :
  bool_decide (n ∈ IGNORED)
  = (String.eqb n "__pycache__" || String.eqb n "node_modules" || String.eqb n "venv").
Proof.
  destruct (String.eqb_spec n "__pycache__") as [->|H1]; [reflexivity|].
  destruct (String.eqb_spec n "node_modules") as [->|H2]; [reflexivity|].
  destruct (String.eqb_spec n "venv") as [->|H3]; [reflexivity|].
  apply bool_decide_eq_false_2. unfold IGNORED.
  rewrite !elem_of_union, !elem_of_singleton. intros [[E|E]|E]; congruence.
Qed.

(** The test of [load_children] keeps exactly the entries the
    specification counts. *)
Lemma shown_counted_by_spec n : shown n = counted_by_spec n.
Proof.
  unfold shown, startswith. rewrite ignored_eqb.
  destruct n as [|c rest]; [reflexivity|].
  destruct c as [[] [] [] [] [] [] [] []]; try reflexivity.
  destruct rest; reflexivity.
Qed.

(** C3, as the code behaves: a directory that cannot be listed, because
    the user may not read it or because it is removed after the [stat],
    has no count at all; [rowCount] on the root address returns no
    number. *)
Lemma unlistable_directory_has_no_count :
  is_directory (fs_locked 0%nat project) = true /\
  (forall n w1,
     rowCount posix fs_locked fresh_model QModelIndex_null
       (session posix fs_locked project []) <> (Ok n, w1)) /\
  is_directory (fs_vanishing 0%nat project) = true /\
  (forall n w1,
     rowCount posix fs_vanishing fresh_model QModelIndex_null
       (session posix fs_vanishing project []) <> (Ok n, w1)).
Proof.
  repeat split; try reflexivity; intros n w1 H; vm_compute in H; discriminate.
Qed.

(** C3 (amended): for a directory [D] that the [stat] sees as a directory
    and whose enumeration then succeeds with the entries [names],
    constructing the model on [D] and asking once for the row count of the
    root address returns the number of entries whose name does not start
    with a dot and is none of [__pycache__], [node_modules], [venv]. *)
Theorem rowCount_root_counts_entries normcase fs D names :
  is_directory (fs 0%nat D) = true ->
  fs 1%nat D = Directory names ->
  exists w0 w1,
    FileTreeModel_init D empty_world = (Ok fresh_model, w0) /\
    rowCount normcase fs fresh_model QModelIndex_null w0
    = (Ok (Z.of_nat (length (List.filter counted_by_spec names))), w1).
Proof.
  intros Hd HD. eexists _, _. split; [reflexivity|].
  rewrite rowCount_eq. simpl.
  set (w0 := mkWorld [mkItem D None [] false] []).
  assert (H0 : heap w0 !! 0%nat = Some (mkItem D None [] false)) by reflexivity.
  pose proof (load_children_dir normcase fs 0%nat w0 _ names H0 eq_refl Hd HD) as Hload.
  erewrite child_count_ok; [|exact Hload|apply (materialized_self _ _ _ _ _ H0)].
  simpl. rewrite length_seq, kept_sorted_length.
  rewrite (List.filter_ext shown counted_by_spec shown_counted_by_spec).
  reflexivity.
Qed.

Lemma rowCount_root_counts_entries_witness :
  exists w0 w1,
    FileTreeModel_init project empty_world = (Ok fresh_model, w0) /\
    rowCount posix fs_project fresh_model QModelIndex_null w0
    = (Ok (Z.of_nat (length (List.filter counted_by_spec
                               ["src"; "README.md"; ".git"; "venv"]))), w1).
Proof.
  apply (rowCount_root_counts_entries posix fs_project project); reflexivity.
Defined.

(** ** A root that does not exist *)

(** C9, as the code behaves: a root path with a component longer than any
    name can be does not exist, yet the first row count does not return 0:
    the [stat] fails with "name too long", [is_dir] raises that error,
    nothing handles it, and the root stays unloaded. *)
Lemma missing_root_can_raise :
  missing (fs_too_long 0%nat project) = true /\
  (rowCount posix fs_too_long fresh_model QModelIndex_null
     (session posix fs_too_long project [])).1 = Raise (OSError ENAMETOOLONG) /\
  loaded <$> heap (run (rowCount posix fs_too_long fresh_model QModelIndex_null)
                       (session posix fs_too_long project [])) !! 0%nat
    = Some false.
Proof. vm_compute. repeat split; reflexivity. Qed.

(** C9 (amended): constructing the model on a path that does not exist
    succeeds without any system call. The first row count on the root
    address makes one [stat] and no enumeration; when [is_dir] answers
    False to the error of the [stat] (no such file, not a directory) it
    returns 0 and leaves the root loaded with no children; when the [stat]
    fails with another error (a name too long) that error is raised and the
    root stays unloaded. *)
Theorem missing_root_is_empty_or_raises normcase fs root_path :
  missing (fs 0%nat root_path) = true ->
  exists w0,
    FileTreeModel_init root_path empty_world = (Ok fresh_model, w0) /\
    syscalls w0 = [] /\
    rowCount normcase fs fresh_model QModelIndex_null w0 =
      match stat_is_dir (fs 0%nat root_path) with
      | Ok _ =>
          (Ok 0, mkWorld [mkItem root_path None [] true] [SysStat root_path])
      | Raise e =>
          (Raise e, mkWorld [mkItem root_path None [] false] [SysStat root_path])
      end.
Proof.
  intros Hmiss. eexists. split; [reflexivity|]. split; [reflexivity|].
  rewrite rowCount_eq. simpl.
  set (w0 := mkWorld [mkItem root_path None [] false] []).
  assert (H0 : heap w0 !! 0%nat = Some (mkItem root_path None [] false)) by reflexivity.
  assert (Hnow : fs (now w0) root_path = fs 0%nat root_path) by reflexivity.
  destruct (stat_is_dir (fs 0%nat root_path)) as [[|]|e] eqn:Hs.
  - apply stat_is_dir_ok in Hs.
    destruct (fs 0%nat root_path); simpl in Hs, Hmiss; discriminate.
  - rewrite <- Hnow in Hs.
    pose proof (load_children_not_dir normcase fs 0%nat w0 _ H0 eq_refl Hs) as Hload.
    erewrite child_count_ok; [|exact Hload|reflexivity]. reflexivity.
  - rewrite <- Hnow in Hs.
    pose proof (load_children_stat_fails normcase fs 0%nat w0 _ e H0 eq_refl Hs) as Hload.
    apply (child_count_raise _ _ _ _ _ _ Hload).
Qed.

Lemma missing_root_is_empty_or_raises_witness :
  exists w0,
    FileTreeModel_init project empty_world = (Ok fresh_model, w0) /\
    syscalls w0 = [] /\
    rowCount posix fs_empty fresh_model QModelIndex_null w0 =
      match stat_is_dir (fs_empty 0%nat project) with
      | Ok _ =>
          (Ok 0, mkWorld [mkItem project None [] true] [SysStat project])
      | Raise e =>
          (Raise e, mkWorld [mkItem project None [] false] [SysStat project])
      end.
Proof.
  apply (missing_root_is_empty_or_raises posix fs_empty project). reflexivity.
Defined.

(** ** Idempotence *)

(** C5: once a call of [load_children] on a node has returned, a second
    call is a no-op whatever the file system has become: the world, hence
    the children sequence and the log of system calls, is unchanged. The
    same holds when the second materialization comes through
    [child_count], [rowCount] or [index] on that node. *)
Theorem load_children_idempotent normcase fs fs' self w w1 :
  load_children normcase fs self w = (Ok tt, w1) ->
  load_children normcase fs' self w1 = (Ok tt, w1) /\
  run (child_count normcase fs' self) w1 = w1 /\
  forall model pa, target model pa = Some self ->
    run (rowCount normcase fs' model pa) w1 = w1 /\
    forall r c, run (index normcase fs' model r c pa) w1 = w1.
Proof.
  intros H. destruct (load_children_ok_loaded _ _ _ _ _ H) as (it1 & H1 & Hl1).
  pose proof (load_children_loaded normcase fs' _ _ _ H1 Hl1) as H2.
  assert (Hrun : run (load_children normcase fs' self) w1 = w1)
    by (unfold run; rewrite H2; reflexivity).
  split; [exact H2|]. split.
  - rewrite child_count_world. exact Hrun.
  - intros model pa Ht. split.
    + destruct (rowCount_world normcase fs' model pa w1) as [E|(n & Hn & E)];
        [exact E|]. rewrite E. congruence.
    + intros r c.
      destruct (index_world normcase fs' model r c pa w1) as [E|(n & Hn & E)];
        [exact E|]. rewrite E. congruence.
Qed.

Lemma load_children_idempotent_witness :
  exists w1,
    load_children posix fs_project 0%nat (session posix fs_project project [])
      = (Ok tt, w1) /\
    load_children posix fs_empty 0%nat w1 = (Ok tt, w1) /\
    run (child_count posix fs_empty 0%nat) w1 = w1 /\
    forall model pa, target model pa = Some 0%nat ->
      run (rowCount posix fs_empty model pa) w1 = w1 /\
      forall r c, run (index posix fs_empty model r c pa) w1 = w1.
Proof.
  eexists. split; [vm_compute; reflexivity|].
  apply (load_children_idempotent posix fs_project fs_empty 0%nat
           (session posix fs_project project [])).
  vm_compute. reflexivity.
Defined.

(** ** Frame of a materialization *)

Lemma heap_step_keeps_loaded m h h' n it :
  heap_step m h h' -> h !! n = Some it -> loaded it = true -> h' !! n = Some it.
Proof.
  intros [->|(it0 & ks & H0 & Hl0 & ->)] Hn Hl; [exact Hn|].
  rewrite (materialized_old m it0 ks true h).
  - exact Hn.
  - intros ->. congruence.
  - eapply lookup_lt_Some, Hn.
Qed.

Lemma heap_step_frame m h h' n :
  heap_step m h h' -> n <> m ->
  ((n < length h)%nat -> h' !! n = h !! n) /\
  (forall x, (length h <= n)%nat -> h' !! n = Some x ->
             loaded x = false /\ child_items x = []).
Proof.
  intros [->|(it0 & ks & H0 & Hl0 & ->)] Hne.
  - split; [reflexivity|]. intros x Hge Hx.
    apply lookup_lt_Some in Hx. lia.
  - split.
    + intros Hlt. apply (materialized_old m it0 ks true h); assumption.
    + intros x Hge Hx.
      destruct (materialized_inv _ _ _ _ _ H0 _ _ Hx)
        as [[-> _]|[[_ Hx']|[_ (q & _ & ->)]]].
      * congruence.
      * apply lookup_lt_Some in Hx'. lia.
      * split; reflexivity.
Qed.

(** C7: a [rowCount] or [index] call materializes at most the node its
    parent address denotes. Every other object that existed keeps all
    its attributes, the loaded flag and the children among them, and every
    object the call constructs is unloaded and has no children. *)
Theorem single_level_materialization normcase fs model pa w n :
  target model pa <> Some n ->
  forall w',
    (w' = run (rowCount normcase fs model pa) w \/
     exists r c, w' = run (index normcase fs model r c pa) w) ->
    ((n < length (heap w))%nat -> heap w' !! n = heap w !! n) /\
    (forall x, (length (heap w) <= n)%nat -> heap w' !! n = Some x ->
               loaded x = false /\ child_items x = []).
Proof.
  intros Ht w' Hw'.
  assert (Hcases : w' = w \/
            exists t, target model pa = Some t /\
                      w' = run (load_children normcase fs t) w).
  { destruct Hw' as [->|(r & c & ->)].
    - apply rowCount_world.
    - apply index_world. }
  destruct Hcases as [->|(t & Htt & ->)].
  - apply (heap_step_frame (S n)); [left; reflexivity|lia].
  - apply (heap_step_frame t).
    + apply load_children_heap_step.
    + intros ->. apply Ht, Htt.
Qed.

Lemma single_level_materialization_witness :
  ((2 < length (heap (session posix fs_project project [CallRowCount QModelIndex_null])))%nat ->
   heap (run (rowCount posix fs_project fresh_model (createIndex 0 0 1%nat))
             (session posix fs_project project [CallRowCount QModelIndex_null])) !! 2%nat
   = heap (session posix fs_project project [CallRowCount QModelIndex_null]) !! 2%nat) /\
  (forall x,
     (length (heap (session posix fs_project project [CallRowCount QModelIndex_null])) <= 2)%nat ->
     heap (run (rowCount posix fs_project fresh_model (createIndex 0 0 1%nat))
               (session posix fs_project project [CallRowCount QModelIndex_null])) !! 2%nat
     = Some x ->
     loaded x = false /\ child_items x = []).
Proof.
  apply (single_level_materialization posix fs_project fresh_model
           (createIndex 0 0 1%nat)
           (session posix fs_project project [CallRowCount QModelIndex_null])
           2%nat).
  - vm_compute. discriminate.
  - left. reflexivity.
Defined.

(** ** Immutability of populated children *)

(** C8: the object of a loaded node, its children sequence included, is
    the same after any sequence of adapter calls and after every store
    operation on any node. *)
Theorem populated_children_immutable normcase fs model w n it :
  heap w !! n = Some it -> loaded it = true ->
  (forall cs,
     heap (fold_left (fun w c => exec normcase fs model c w) cs w) !! n = Some it) /\
  (forall m, heap (run (load_children normcase fs m) w) !! n = Some it) /\
  (forall m, heap (run (child_count normcase fs m) w) !! n = Some it) /\
  (forall m r, heap (run (child m r) w) !! n = Some it) /\
  (forall m, heap (run (row m) w) !! n = Some it).
Proof.
  intros Hn Hl.
  assert (Hload : forall w0 m, heap w0 !! n = Some it ->
            heap (run (load_children normcase fs m) w0) !! n = Some it).
  { intros w0 m H0. eapply heap_step_keeps_loaded;
      [apply load_children_heap_step|exact H0|exact Hl]. }
  repeat split.
  - intros cs. revert w Hn. induction cs as [|c cs IH]; intros w Hn; [exact Hn|].
    simpl. apply IH.
    destruct (exec_world normcase fs model c w) as [->|(m & ->)];
      [exact Hn|apply Hload, Hn].
  - intros m. apply Hload, Hn.
  - intros m. rewrite child_count_world. apply Hload, Hn.
  - intros m r. rewrite child_world. exact Hn.
  - intros m. rewrite row_world. exact Hn.
Qed.

Lemma populated_children_immutable_witness :
  (forall cs,
     heap (fold_left (fun w c => exec posix fs_empty fresh_model c w) cs
             (session posix fs_project project [CallRowCount QModelIndex_null])) !! 0%nat
     = Some (mkItem project None [1%nat; 2%nat] true)) /\
  (forall m, heap (run (load_children posix fs_empty m)
             (session posix fs_project project [CallRowCount QModelIndex_null])) !! 0%nat
     = Some (mkItem project None [1%nat; 2%nat] true)) /\
  (forall m, heap (run (child_count posix fs_empty m)
             (session posix fs_project project [CallRowCount QModelIndex_null])) !! 0%nat
     = Some (mkItem project None [1%nat; 2%nat] true)) /\
  (forall m r, heap (run (child m r)
             (session posix fs_project project [CallRowCount QModelIndex_null])) !! 0%nat
     = Some (mkItem project None [1%nat; 2%nat] true)) /\
  (forall m, heap (run (row m)
             (session posix fs_project project [CallRowCount QModelIndex_null])) !! 0%nat
     = Some (mkItem project None [1%nat; 2%nat] true)).
Proof.
  apply (populated_children_immutable posix fs_empty fresh_model
           (session posix fs_project project [CallRowCount QModelIndex_null])
           0%nat (mkItem project None [1%nat; 2%nat] true)); reflexivity.
Defined.

(** ** Names and order of the children *)

Lemma map_name_joinpath p l : List.map name (List.map (joinpath p) l) = l.
Proof.
  induction l as [|n l IH]; [reflexivity|].
  simpl. rewrite name_joinpath, IH. reflexivity.
Qed.

(** The children a directory node receives, by name. *)
Lemma child_names_after_load normcase self it names h :
  h !! self = Some it -> child_items it = [] ->
  child_names
    (materialized self it
       (kept (sorted normcase (List.map (joinpath (path it)) names))) true h) self
  = List.filter shown (sorted_names normcase names).
Proof.
  intros H Hnil. rewrite (child_names_materialized _ _ _ _ H Hnil).
  rewrite kept_sorted. apply map_name_joinpath.
Qed.

(** C4: materializing a directory node of a session gives it children
    whose entry names are in ascending order of the case-normalised names
    and are exactly the surviving entries; materializing it again, whatever
    the file system has become, changes nothing. *)
Theorem children_in_name_order normcase fs D cs self it names :
  let w := session normcase fs D cs in
  heap w !! self = Some it -> loaded it = false ->
  is_directory (fs (now w) (path it)) = true ->
  fs (S (now w)) (path it) = Directory names ->
  exists w1,
    load_children normcase fs self w = (Ok tt, w1) /\
    StronglySorted (name_le normcase) (child_names (heap w1) self) /\
    Permutation (child_names (heap w1) self) (List.filter shown names) /\
    forall fs', load_children normcase fs' self w1 = (Ok tt, w1).
Proof.
  intros w H Hl Hd Hn.
  pose proof (wf_lazy _ (session_wf normcase fs D cs) _ _ H Hl) as Hnil.
  pose proof (load_children_dir normcase fs _ _ _ _ H Hl Hd Hn) as Hload.
  eexists. split; [exact Hload|]. simpl heap.
  rewrite (child_names_after_load normcase _ _ names _ H Hnil).
  split; [|split].
  - apply filter_StronglySorted, sorted_names_StronglySorted.
  - apply filter_Permutation_bool, sorted_names_Permutation.
  - intros fs'.
    destruct (load_children_ok_loaded _ _ _ _ _ Hload) as (it1 & H1 & Hl1).
    apply (load_children_loaded normcase fs' _ _ _ H1 Hl1).
Qed.

Lemma children_in_name_order_witness :
  exists w1,
    load_children posix fs_project 0%nat (session posix fs_project project [])
      = (Ok tt, w1) /\
    StronglySorted (name_le posix) (child_names (heap w1) 0%nat) /\
    Permutation (child_names (heap w1) 0%nat)
                (List.filter shown ["src"; "README.md"; ".git"; "venv"]) /\
    forall fs', load_children posix fs' 0%nat w1 = (Ok tt, w1).
Proof.
  apply (children_in_name_order posix fs_project project [] 0%nat
           (mkItem project None [] false) ["src"; "README.md"; ".git"; "venv"]);
    reflexivity.
Defined.

(** C10: the ignored names are excluded by name alone. Whatever kind of
    entry [n] is in the directory, a regular file as much as a directory,
    a name of the ignore set is the name of no child after the node is
    materialized. *)
Theorem ignored_whatever_the_entry_type normcase fs D cs self it names n kind :
  let w := session normcase fs D cs in
  heap w !! self = Some it -> loaded it = false ->
  is_directory (fs (now w) (path it)) = true ->
  fs (S (now w)) (path it) = Directory names ->
  n ∈ IGNORED ->
  (forall t, fs t (joinpath (path it) n) = kind) ->
  exists w1,
    load_children normcase fs self w = (Ok tt, w1) /\
    n ∉ child_names (heap w1) self.
Proof.
  intros w H Hl Hd Hn Hign _.
  pose proof (wf_lazy _ (session_wf normcase fs D cs) _ _ H Hl) as Hnil.
  pose proof (load_children_dir normcase fs _ _ _ _ H Hl Hd Hn) as Hload.
  eexists. split; [exact Hload|]. simpl heap.
  rewrite (child_names_after_load normcase _ _ names _ H Hnil).
  intros Hin. apply list_elem_of_In, List.filter_In in Hin.
  destruct Hin as [_ Hs]. unfold shown in Hs.
  apply andb_true_iff in Hs. destruct Hs as [_ Hs].
  apply negb_true_iff, bool_decide_eq_false in Hs. exact (Hs Hign).
Qed.

Lemma ignored_whatever_the_entry_type_witness :
  exists w1,
    load_children posix fs_project 0%nat (session posix fs_project project [])
      = (Ok tt, w1) /\
    "venv" ∉ child_names (heap w1) 0%nat.
Proof.
  apply (ignored_whatever_the_entry_type posix fs_project project [] 0%nat
           (mkItem project None [] false) ["src"; "README.md"; ".git"; "venv"]
           "venv" RegularFile); reflexivity.
Defined.

(** ** Rows, addresses and the way back *)

Lemma list_index_NoDup x l i :
  NoDup l -> l !! i = Some x -> list_index x l = Some i.
Proof.
  intros Hnd. revert i. induction Hnd as [|y l Hy Hnd IH]; intros i Hi.
  - destruct i; discriminate.
  - destruct i as [|i]; simpl in *.
    + injection Hi as ->. rewrite Nat.eqb_refl. reflexivity.
    + destruct (Nat.eqb_spec y x) as [->|Hne].
      * exfalso. apply Hy. eapply list_elem_of_lookup_2, Hi.
      * rewrite (IH i Hi). reflexivity.
Qed.

Lemma row_eq n w it p ip i :
  heap w !! n = Some it -> parent_item it = Some p ->
  heap w !! p = Some ip -> NoDup (child_items ip) ->
  child_items ip !! i = Some n ->
  row n w = (Ok (Z.of_nat i), w).
Proof.
  intros Hn Hp Hip Hnd Hi. unfold row.
  rewrite (bind_ok _ _ _ _ _ (get_item_ok _ _ _ Hn)), Hp.
  rewrite (bind_ok _ _ _ _ _ (get_item_ok _ _ _ Hip)).
  rewrite (list_index_NoDup _ _ _ Hnd Hi). reflexivity.
Qed.

(** In a well-formed heap every object but the root has a parent that
    lists it at exactly one row, which is what [row] returns. *)
Lemma row_of_nonroot w n it :
  wf (heap w) -> heap w !! n = Some it -> n <> 0%nat ->
  exists i p ip,
    parent_item it = Some p /\ heap w !! p = Some ip /\ loaded ip = true /\
    child_items ip !! i = Some n /\
    (forall j, child_items ip !! j = Some n -> j = i) /\
    row n w = (Ok (Z.of_nat i), w).
Proof.
  intros W Hn Hne.
  destruct (parent_item it) as [p|] eqn:Hp.
  2: { exfalso. apply Hne. apply (wf_root _ W _ _ Hn), Hp. }
  destruct (wf_parent _ W _ _ _ Hn Hp) as (ip & Hip & Hin).
  apply list_elem_of_lookup_1 in Hin. destruct Hin as [i Hi].
  pose proof (wf_nodup _ W _ _ Hip) as Hnd.
  exists i, p, ip. repeat split; try assumption.
  - destruct (loaded ip) eqn:Hl; [reflexivity|].
    rewrite (wf_lazy _ W _ _ Hip Hl) in Hi. discriminate.
  - intros j Hj. eapply NoDup_lookup; eassumption.
  - eapply row_eq; eassumption.
Qed.

Lemma resolve_target (self : FileTreeModel) pa p w :
  target self pa = Some p ->
  (if negb (isValid pa) then ret (root_item self) else internalPointer pa) w
  = (Ok p, w).
Proof.
  unfold target, internalPointer. destruct (isValid pa); simpl.
  - intros ->. reflexivity.
  - intros [= ->]. reflexivity.
Qed.

(** [index] below a loaded parent, for a row in range. *)
Lemma index_loaded normcase fs self r pa w p ip ci :
  target self pa = Some p -> ix_column pa <= 0 ->
  heap w !! p = Some ip -> loaded ip = true ->
  child_items ip !! Z.to_nat r = Some ci ->
  0 <= r ->
  index normcase fs self r 0 pa w = (Ok (createIndex r 0 ci), w).
Proof.
  intros Ht Hcol Hip Hl Hci Hr.
  pose proof (lookup_lt_Some _ _ _ Hci) as Hlen.
  assert (Hhas : hasIndex normcase fs self r 0 pa w = (Ok true, w)).
  { unfold hasIndex. destruct (Z.ltb_spec r 0); [lia|]. simpl.
    assert (Hrc : rowCount normcase fs self pa w
                  = (Ok (Z.of_nat (length (child_items ip))), w)).
    { rewrite rowCount_eq, Ht. destruct (Z.gtb_spec (ix_column pa) 0); [lia|].
      apply child_count_loaded; assumption. }
    rewrite (bind_ok _ _ _ _ _ Hrc).
    destruct (Z.ltb_spec r (Z.of_nat (length (child_items ip)))); [|lia].
    reflexivity. }
  unfold index. rewrite (bind_ok _ _ _ _ _ Hhas). simpl.
  rewrite (bind_ok _ _ _ _ _ (resolve_target self pa p w Ht)).
  rewrite (bind_ok _ _ _ _ _ (child_eq p r w ip Hip)).
  destruct (Z.leb_spec 0 r); [|lia].
  destruct (Z.ltb_spec r (Z.of_nat (length (child_items ip)))); [|lia].
  simpl. rewrite Hci. reflexivity.
Qed.

(** C6: in every world of a session, a node [N] other than the root has
    a parent whose children sequence holds [N] at exactly one position;
    [row] of [N] is that position; the parent of the address of [N] is the
    address of its parent; and [index] at that row, column 0, under the
    address of the parent is the address of [N] again. *)
Theorem parent_child_round_trip normcase fs D cs N it :
  let w := session normcase fs D cs in
  heap w !! N = Some it -> N <> root_item fresh_model ->
  exists i p ip a pa,
    parent_item it = Some p /\ heap w !! p = Some ip /\
    child_items ip !! i = Some N /\
    (forall j, child_items ip !! j = Some N -> j = i) /\
    row N w = (Ok (Z.of_nat i), w) /\
    address_of fresh_model N w = (Ok a, w) /\
    address_of fresh_model p w = (Ok pa, w) /\
    parent fresh_model a w = (Ok pa, w) /\
    index normcase fs fresh_model (Z.of_nat i) 0 pa w = (Ok a, w).
Proof.
  intros w HN Hne. simpl in Hne.
  pose proof (session_wf normcase fs D cs) as W. fold w in W.
  destruct (row_of_nonroot w N it W HN Hne)
    as (i & p & ip & Hp & Hip & Hl & Hi & Huniq & Hrow).
  assert (Ha : address_of fresh_model N w = (Ok (createIndex (Z.of_nat i) 0 N), w)).
  { unfold address_of. simpl. rewrite bool_decide_eq_false_2 by exact Hne.
    rewrite (bind_ok _ _ _ _ _ Hrow). reflexivity. }
  assert (Hvalid : forall j n, isValid (createIndex (Z.of_nat j) 0 n) = true).
  { intros j n. unfold isValid. simpl.
    destruct (Z.leb_spec 0 (Z.of_nat j)); [reflexivity|lia]. }
  assert (Hpa : exists pa,
             address_of fresh_model p w = (Ok pa, w) /\
             parent fresh_model (createIndex (Z.of_nat i) 0 N) w = (Ok pa, w) /\
             target fresh_model pa = Some p /\ ix_column pa <= 0).
  { unfold address_of, parent. rewrite Hvalid. simpl.
    rewrite (bind_ok (internalPointer (createIndex (Z.of_nat i) 0 N)) _ w N w eq_refl).
    rewrite (bind_ok _ _ _ _ _ (get_item_ok _ _ _ HN)), Hp.
    destruct (decide (p = 0%nat)) as [->|Hp0].
    - rewrite !bool_decide_eq_true_2 by reflexivity.
      exists QModelIndex_null. repeat split; simpl; lia.
    - rewrite bool_decide_eq_false_2 by exact Hp0.
      rewrite bool_decide_eq_false_2 by congruence.
      destruct (row_of_nonroot w p ip W Hip Hp0) as (j & _ & _ & _ & _ & _ & _ & _ & Hrp).
      rewrite !(bind_ok _ _ _ _ _ Hrp).
      exists (createIndex (Z.of_nat j) 0 p). repeat split.
      + unfold target. rewrite Hvalid. reflexivity.
      + simpl. lia. }
  destruct Hpa as (pa & Hpa1 & Hpa2 & Hpa3 & Hpa4).
  exists i, p, ip, (createIndex (Z.of_nat i) 0 N), pa.
  repeat split; try assumption.
  eapply index_loaded; try eassumption.
  - rewrite Nat2Z.id. exact Hi.
  - lia.
Qed.

Lemma parent_child_round_trip_witness :
  exists i p ip a pa,
    parent_item (mkItem (joinpath project "src") (Some 0%nat) [] false) = Some p /\
    heap (session posix fs_project project [CallRowCount QModelIndex_null]) !! p = Some ip /\
    child_items ip !! i = Some 2%nat /\
    (forall j, child_items ip !! j = Some 2%nat -> j = i) /\
    row 2%nat (session posix fs_project project [CallRowCount QModelIndex_null])
      = (Ok (Z.of_nat i), session posix fs_project project [CallRowCount QModelIndex_null]) /\
    address_of fresh_model 2%nat (session posix fs_project project [CallRowCount QModelIndex_null])
      = (Ok a, session posix fs_project project [CallRowCount QModelIndex_null]) /\
    address_of fresh_model p (session posix fs_project project [CallRowCount QModelIndex_null])
      = (Ok pa, session posix fs_project project [CallRowCount QModelIndex_null]) /\
    parent fresh_model a (session posix fs_project project [CallRowCount QModelIndex_null])
      = (Ok pa, session posix fs_project project [CallRowCount QModelIndex_null]) /\
    index posix fs_project fresh_model (Z.of_nat i) 0 pa
          (session posix fs_project project [CallRowCount QModelIndex_null])
      = (Ok a, session posix fs_project project [CallRowCount QModelIndex_null]).
Proof.
  apply (parent_child_round_trip posix fs_project project
           [CallRowCount QModelIndex_null] 2%nat
           (mkItem (joinpath project "src") (Some 0%nat) [] false)).
  - reflexivity.
  - vm_compute. discriminate.
Defined.

(** * Further properties of the tree model *)

(** ** Results of [rowCount], [hasIndex] and [index] *)

Section Results.

Variable normcase : string -> string.
Variable fs : FileSystem.
Variable model : FileTreeModel.

Lemma rowCount_ok pa w n w1 :
  rowCount normcase fs model pa w = (Ok n, w1) ->
  (ix_column pa > 0 /\ n = 0 /\ w1 = w) \/
  (ix_column pa <= 0 /\
   exists p ip, target model pa = Some p /\
                load_children normcase fs p w = (Ok tt, w1) /\
                heap w1 !! p = Some ip /\ loaded ip = true /\
                n = Z.of_nat (length (child_items ip))).
Proof.
  rewrite rowCount_eq. destruct (Z.gtb_spec (ix_column pa) 0) as [Hc|Hc].
  - intros [= <- <-]. left. repeat split. lia.
  - destruct (target model pa) as [p|] eqn:Ht; [|discriminate].
    intros Hcc. right. split; [lia|].
    unfold child_count, bind in Hcc.
    destruct (load_children normcase fs p w) as [[[]|e] w2] eqn:Hload; [|discriminate].
    destruct (load_children_ok_loaded _ _ _ _ _ Hload) as (ip & Hip & Hl).
    unfold get_item in Hcc. rewrite Hip in Hcc. injection Hcc as <- <-.
    exists p, ip. repeat split; assumption.
Qed.

Lemma rowCount_again pa w n w1 :
  rowCount normcase fs model pa w = (Ok n, w1) ->
  rowCount normcase fs model pa w1 = (Ok n, w1).
Proof.
  intros H. destruct (rowCount_ok _ _ _ _ H)
    as [(Hc & -> & ->)|(Hc & p & ip & Ht & _ & Hip & Hl & ->)].
  - exact H.
  - rewrite rowCount_eq, Ht. destruct (Z.gtb_spec (ix_column pa) 0); [lia|].
    apply child_count_loaded; assumption.
Qed.

Lemma hasIndex_true r c pa w w1 :
  hasIndex normcase fs model r c pa w = (Ok true, w1) ->
  0 <= r /\ c = 0 /\
  exists n, rowCount normcase fs model pa w = (Ok n, w1) /\ r < n.
Proof.
  unfold hasIndex.
  destruct (Z.ltb_spec r 0) as [|Hr]; [discriminate|].
  destruct (Z.ltb_spec c 0) as [|Hc]; [discriminate|]. simpl.
  unfold bind at 1.
  destruct (rowCount normcase fs model pa w) as [[n|e] w2]; [|discriminate].
  destruct (Z.ltb_spec r n) as [Hrn|]; [|discriminate].
  unfold bind, columnCount, ret.
  destruct (Z.ltb_spec c 1) as [Hc1|]; [|discriminate].
  intros [= <-]. repeat split; [assumption|lia|]. exists n. split; [reflexivity|assumption].
Qed.

Lemma index_ok r c pa w a w1 :
  index normcase fs model r c pa w = (Ok a, w1) ->
  a = QModelIndex_null \/
  (c = 0 /\ 0 <= r /\
   exists p ip ci,
     target model pa = Some p /\ heap w1 !! p = Some ip /\ loaded ip = true /\
     child_items ip !! Z.to_nat r = Some ci /\ a = createIndex r 0 ci).
Proof.
  unfold index, bind at 1.
  destruct (hasIndex normcase fs model r c pa w) as [[[|]|e] w2] eqn:Hh;
    simpl; [| |discriminate].
  2: { intros [= <- <-]. left. reflexivity. }
  destruct (hasIndex_true _ _ _ _ _ Hh) as (Hr & -> & n & Hrc & Hrn).
  destruct (rowCount_ok _ _ _ _ Hrc)
    as [(_ & -> & _)|(Hc & p & ip & Ht & _ & Hip & Hl & ->)]; [lia|].
  rewrite (bind_ok _ _ _ _ _ (resolve_target model pa p w2 Ht)).
  rewrite (bind_ok _ _ _ _ _ (child_eq p r w2 ip Hip)).
  destruct (Z.leb_spec 0 r); [|lia].
  destruct (Z.ltb_spec r (Z.of_nat (length (child_items ip)))); [|lia]. simpl.
  destruct (child_items ip !! Z.to_nat r) as [ci|] eqn:Hci.
  - intros [= <- <-]. right. repeat split; try assumption.
    exists p, ip, ci. repeat split; assumption.
  - intros [= <- <-]. left. reflexivity.
Qed.

Lemma index_after_rowCount r c pa w n :
  rowCount normcase fs model pa w = (Ok n, w) ->
  (0 <= r < n /\ c = 0 ->
     exists ci, index normcase fs model r c pa w = (Ok (createIndex r 0 ci), w)) /\
  (~ (0 <= r < n /\ c = 0) ->
     index normcase fs model r c pa w = (Ok QModelIndex_null, w)).
Proof.
  intros Hrc. split.
  - intros [Hr ->].
    destruct (rowCount_ok _ _ _ _ Hrc)
      as [(_ & -> & _)|(Hc & p & ip & Ht & _ & Hip & Hl & ->)]; [lia|].
    destruct (lookup_lt_is_Some_2 (child_items ip) (Z.to_nat r)) as [ci Hci]; [lia|].
    exists ci. eapply index_loaded; try eassumption. lia.
  - intros Hout. unfold index.
    assert (Hh : hasIndex normcase fs model r c pa w = (Ok false, w)).
    { unfold hasIndex.
      destruct (Z.ltb_spec r 0); [reflexivity|].
      destruct (Z.ltb_spec c 0); [reflexivity|]. simpl.
      rewrite (bind_ok _ _ _ _ _ Hrc).
      destruct (Z.ltb_spec r n); [|reflexivity].
      unfold bind, columnCount, ret.
      destruct (Z.ltb_spec c 1); [|reflexivity]. lia. }
    rewrite (bind_ok _ _ _ _ _ Hh). reflexivity.
Qed.

End Results.

(** [index] answers with the invalid address or with the address of the
    child at the requested row of the node the parent address denotes:
    never a column other than 0, never a row outside the children of that
    node, which it leaves loaded. *)
Theorem index_returns_child_or_invalid normcase fs model r c pa w a w1 :
  index normcase fs model r c pa w = (Ok a, w1) ->
  a = QModelIndex_null \/
  (c = 0 /\ 0 <= r /\
   exists p ip ci,
     target model pa = Some p /\ heap w1 !! p = Some ip /\ loaded ip = true /\
     child_items ip !! Z.to_nat r = Some ci /\ a = createIndex r 0 ci).
Proof. apply index_ok. Qed.

Lemma index_returns_child_or_invalid_witness :
  createIndex 1 0 2%nat = QModelIndex_null \/
  (0 = 0 /\ 0 <= 1 /\
   exists p ip ci,
     target fresh_model QModelIndex_null = Some p /\
     heap (session posix fs_project project [CallRowCount QModelIndex_null]) !! p = Some ip /\
     loaded ip = true /\
     child_items ip !! Z.to_nat 1 = Some ci /\ createIndex 1 0 2%nat = createIndex 1 0 ci).
Proof.
  apply (index_returns_child_or_invalid posix fs_project fresh_model 1 0
           QModelIndex_null (session posix fs_project project [])).
  vm_compute. reflexivity.
Defined.

(** Once [rowCount] has returned [n] for a parent address, [index] under
    that address is valid exactly for the rows 0 to n-1 at column 0, is the
    invalid address for every other row or column, and changes nothing. *)
Theorem index_agrees_with_rowCount normcase fs model pa w n w1 r c :
  rowCount normcase fs model pa w = (Ok n, w1) ->
  (0 <= r < n /\ c = 0 ->
     exists ci, index normcase fs model r c pa w1 = (Ok (createIndex r 0 ci), w1)) /\
  (~ (0 <= r < n /\ c = 0) ->
     index normcase fs model r c pa w1 = (Ok QModelIndex_null, w1)).
Proof.
  intros H. apply index_after_rowCount, (rowCount_again _ _ _ _ _ _ _ H).
Qed.

Lemma index_agrees_with_rowCount_witness :
  let w1 := session posix fs_project project [CallRowCount QModelIndex_null] in
  (0 <= 2 < 2 /\ 1 = 0 ->
     exists ci, index posix fs_project fresh_model 2 1 QModelIndex_null w1
                = (Ok (createIndex 2 0 ci), w1)) /\
  (~ (0 <= 2 < 2 /\ 1 = 0) ->
     index posix fs_project fresh_model 2 1 QModelIndex_null w1
     = (Ok QModelIndex_null, w1)).
Proof.
  apply (index_agrees_with_rowCount posix fs_project fresh_model QModelIndex_null
           (session posix fs_project project []) 2).
  vm_compute. reflexivity.
Defined.

(** ** Leaves *)

(** A node of a session for whose path [is_dir] answers False at its
    first inspection (the [stat] succeeds on something that is no
    directory, or fails with an error [is_dir] ignores) is a leaf:
    [rowCount] on its address returns 0 after one [stat] and no
    enumeration, only marks the node loaded, and [index] under it is the
    invalid address for every row and column. *)
Theorem leaf_has_no_rows normcase fs D cs n it pa :
  let w := session normcase fs D cs in
  heap w !! n = Some it -> loaded it = false ->
  stat_is_dir (fs (now w) (path it)) = Ok false ->
  target fresh_model pa = Some n -> ix_column pa <= 0 ->
  exists w1,
    rowCount normcase fs fresh_model pa w = (Ok 0, w1) /\
    syscalls w1 = syscalls w ++ [SysStat (path it)] /\
    heap w1 = <[n := mkItem (path it) (parent_item it) [] true]> (heap w) /\
    forall r c, (index normcase fs fresh_model r c pa w).1 = Ok QModelIndex_null.
Proof.
  intros w H Hl Hd Ht Hcol.
  pose proof (wf_lazy _ (session_wf normcase fs D cs) _ _ H Hl) as Hnil.
  pose proof (load_children_not_dir normcase fs _ _ _ H Hl Hd) as Hload.
  rewrite Hnil in Hload.
  assert (Hrc : rowCount normcase fs fresh_model pa w
                = (Ok 0, mkWorld (<[n := mkItem (path it) (parent_item it) [] true]> (heap w))
                                 (syscalls w ++ [SysStat (path it)]))).
  { rewrite rowCount_eq, Ht. destruct (Z.gtb_spec (ix_column pa) 0); [lia|].
    apply (child_count_ok normcase fs n w _
             (mkItem (path it) (parent_item it) [] true) Hload).
    simpl. apply list_lookup_insert_eq. eapply lookup_lt_Some, H. }
  eexists. split; [exact Hrc|]. repeat split.
  intros r c. unfold index, hasIndex.
  destruct (Z.ltb_spec r 0) as [|Hr]; [reflexivity|].
  destruct (c <? 0); [reflexivity|]. simpl.
  unfold bind at 1. unfold bind at 1. rewrite Hrc.
  destruct (Z.ltb_spec r 0); [lia|]. reflexivity.
Qed.

Lemma leaf_has_no_rows_witness :
  let w := session posix fs_project project [CallRowCount QModelIndex_null] in
  exists w1,
    rowCount posix fs_project fresh_model (createIndex 0 0 1%nat) w = (Ok 0, w1) /\
    syscalls w1 = syscalls w ++ [SysStat (joinpath project "README.md")] /\
    heap w1 = <[1%nat := mkItem (joinpath project "README.md") (Some 0%nat) [] true]> (heap w) /\
    forall r c,
      (index posix fs_project fresh_model r c (createIndex 0 0 1%nat) w).1
      = Ok QModelIndex_null.
Proof.
  apply (leaf_has_no_rows posix fs_project project [CallRowCount QModelIndex_null]
           1%nat (mkItem (joinpath project "README.md") (Some 0%nat) [] false)
           (createIndex 0 0 1%nat)); reflexivity.
Defined.

(** ** System calls of one call *)

Lemma load_children_io normcase fs p w :
  run (load_children normcase fs p) w = w \/
  exists it, heap w !! p = Some it /\ loaded it = false /\
    syscalls (run (load_children normcase fs p) w) =
      syscalls w ++
        SysStat (path it) ::
        (if is_directory (fs (now w) (path it)) then [SysScandir (path it)] else []).
Proof.
  unfold run. destruct (heap w !! p) as [it|] eqn:H.
  - destruct (loaded it) eqn:Hl.
    + rewrite (load_children_loaded _ _ _ _ _ H Hl). left. reflexivity.
    + right. exists it. split; [reflexivity|]. split; [exact Hl|].
      rewrite (load_children_unloaded _ _ _ _ _ H Hl). cbv zeta.
      destruct (stat_is_dir _) as [[|]|e] eqn:Hs.
      * rewrite (stat_is_dir_ok _ _ Hs).
        destruct (scandir _); simpl; rewrite <- app_assoc; reflexivity.
      * rewrite (stat_is_dir_ok _ _ Hs). reflexivity.
      * rewrite (proj1 (stat_is_dir_raise _ _ Hs)). reflexivity.
  - rewrite (load_children_none _ _ _ _ H). left. reflexivity.
Qed.

(** A [rowCount] or [index] call makes no system call at all, or one
    [stat] of the path of the node its parent address denotes, followed by
    one enumeration of that path when the [stat] saw a directory; it makes
    none when that node is already loaded. *)
Theorem at_most_one_level_of_io normcase fs model pa w :
  one_level_io fs model pa w (run (rowCount normcase fs model pa) w) /\
  (forall r c, one_level_io fs model pa w (run (index normcase fs model r c pa) w)) /\
  (forall p it, target model pa = Some p -> heap w !! p = Some it -> loaded it = true ->
     run (rowCount normcase fs model pa) w = w /\
     forall r c, run (index normcase fs model r c pa) w = w).
Proof.
  assert (Hload : forall p, target model pa = Some p ->
            one_level_io fs model pa w (run (load_children normcase fs p) w)).
  { intros p Ht. destruct (load_children_io normcase fs p w) as [->|(it & H & Hl & Hs)].
    - left. reflexivity.
    - right. exists p, it. repeat split; assumption. }
  assert (Hidle : forall p it, heap w !! p = Some it -> loaded it = true ->
            run (load_children normcase fs p) w = w).
  { intros p it H Hl. unfold run. rewrite (load_children_loaded _ _ _ _ _ H Hl).
    reflexivity. }
  split; [|split].
  - destruct (rowCount_world normcase fs model pa w) as [->|(p & Ht & ->)];
      [left; reflexivity|apply Hload, Ht].
  - intros r c.
    destruct (index_world normcase fs model r c pa w) as [->|(p & Ht & ->)];
      [left; reflexivity|apply Hload, Ht].
  - intros p it Ht H Hl. split.
    + destruct (rowCount_world normcase fs model pa w) as [E|(q & Hq & E)];
        [exact E|]. rewrite E. rewrite Ht in Hq. injection Hq as <-.
      eapply Hidle; eassumption.
    + intros r c.
      destruct (index_world normcase fs model r c pa w) as [E|(q & Hq & E)];
        [exact E|]. rewrite E. rewrite Ht in Hq. injection Hq as <-.
      eapply Hidle; eassumption.
Qed.

(** ** Invariants of a session *)

Lemma session_induction normcase fs D (P : World -> Prop) :
  P (run (FileTreeModel_init D) empty_world) ->
  (forall w n, P w -> P (run (load_children normcase fs n) w)) ->
  forall cs, P (session normcase fs D cs).
Proof.
  intros H0 Hstep cs. unfold session.
  generalize dependent (run (FileTreeModel_init D) empty_world).
  induction cs as [|c cs IH]; intros w Hw; simpl; [exact Hw|].
  apply IH.
  destruct (exec_world normcase fs fresh_model c w) as [->|(n & ->)]; auto.
Qed.

Lemma materialized_keeps self it ks l h n x :
  h !! self = Some it -> h !! n = Some x ->
  exists x', materialized self it ks l h !! n = Some x' /\
             path x' = path x /\ parent_item x' = parent_item x /\
             (forall c, c ∈ child_items x -> c ∈ child_items x').
Proof.
  intros Hself Hx. destruct (decide (n = self)) as [->|Hne].
  - rewrite Hself in Hx. injection Hx as <-.
    eexists. split; [apply (materialized_self _ _ _ _ _ Hself)|]. simpl.
    repeat split. intros c Hc. apply elem_of_app. left. exact Hc.
  - exists x. rewrite materialized_old; eauto using lookup_lt_Some.
Qed.

(** The heap after [load_children], with the names of the new children. *)
Lemma load_children_effect normcase fs self w :
  heap (run (load_children normcase fs self) w) = heap w \/
  exists it nms,
    heap w !! self = Some it /\ loaded it = false /\
    (forall nm, nm ∈ nms -> shown nm = true) /\
    heap (run (load_children normcase fs self) w)
    = materialized self it (List.map (joinpath (path it)) nms) true (heap w).
Proof.
  unfold run. destruct (heap w !! self) as [it|] eqn:H.
  - destruct (loaded it) eqn:Hl.
    + rewrite (load_children_loaded _ _ _ _ _ H Hl). left. reflexivity.
    + rewrite (load_children_unloaded _ _ _ _ _ H Hl). cbv zeta.
      destruct (stat_is_dir _) as [[|]|e]; [| |left; reflexivity].
      * destruct (scandir _) as [names|e]; simpl; [|left; reflexivity].
        right. exists it, (List.filter shown (sorted_names normcase names)).
        repeat split; try assumption.
        -- intros nm Hnm. apply list_elem_of_In, List.filter_In in Hnm. tauto.
        -- rewrite kept_sorted. reflexivity.
      * right. exists it, []. simpl. repeat split; try assumption.
        intros nm Hnm. inversion Hnm.
  - rewrite (load_children_none _ _ _ _ H). left. reflexivity.
Qed.

Lemma session_paths normcase fs D cs :
  let w := session normcase fs D cs in
  forall n it p, heap w !! n = Some it -> parent_item it = Some p ->
    exists ip nm, heap w !! p = Some ip /\
                  path it = joinpath (path ip) nm /\ shown nm = true.
Proof.
  cbv zeta.
  apply (session_induction normcase fs D
    (fun w => wf (heap w) /\
       forall n it p, heap w !! n = Some it -> parent_item it = Some p ->
         exists ip nm, heap w !! p = Some ip /\
                       path it = joinpath (path ip) nm /\ shown nm = true)).
  - split; [apply wf_initial|].
    intros [|n] it p H Hp; simpl in H; [|destruct n; discriminate].
    injection H as <-. discriminate.
  - intros w m [W IH]. split.
    { eapply wf_heap_step; [exact W|apply load_children_heap_step]. }
    destruct (load_children_effect normcase fs m w)
      as [->|(it0 & nms & H0 & Hl0 & Hall & ->)]; [exact IH|].
    intros n x p Hx Hp.
    assert (Hold : forall k y, heap w !! k = Some y -> parent_item y = Some p ->
              exists ip nm,
                materialized m it0 (List.map (joinpath (path it0)) nms) true (heap w) !! p
                = Some ip /\ path y = joinpath (path ip) nm /\ shown nm = true).
    { intros k y Hk Hky. destruct (IH k y p Hk Hky) as (ip & nm & Hip & Hpath & Hs).
      destruct (materialized_keeps m it0 (List.map (joinpath (path it0)) nms) true
                  _ _ _ H0 Hip) as (ip' & Hip' & Hpp & _).
      exists ip', nm. rewrite Hpp. repeat split; assumption. }
    destruct (materialized_inv _ _ _ _ _ H0 _ _ Hx)
      as [[-> ->]|[[Hne Hx']|[Hr (q & Hq & ->)]]].
    + simpl in Hp. apply (Hold m it0 H0 Hp).
    + apply (Hold n x Hx' Hp).
    + simpl in Hp. injection Hp as <-.
      rewrite list_lookup_fmap in Hq.
      destruct (nms !! (n - length (heap w))%nat) as [nm|] eqn:Hnm; [|discriminate].
      injection Hq as <-.
      eexists _, nm. split; [apply (materialized_self _ _ _ _ _ H0)|].
      simpl. split; [reflexivity|]. eapply Hall, list_elem_of_lookup_2, Hnm.
Qed.

(** No hidden and no ignored entry ever enters the tree: in every world
    of a session, the path of a node other than the root is the path of
    its parent followed by its own name, and that name neither starts with
    a dot nor is one of the ignored names. *)
Theorem no_hidden_or_ignored_node normcase fs D cs n it p :
  let w := session normcase fs D cs in
  heap w !! n = Some it -> parent_item it = Some p ->
  exists ip,
    heap w !! p = Some ip /\
    path it = joinpath (path ip) (name (path it)) /\
    startswith (name (path it)) "." = false /\
    name (path it) ∉ IGNORED.
Proof.
  intros w H Hp.
  destruct (session_paths normcase fs D cs n it p H Hp) as (ip & nm & Hip & Hpath & Hs).
  exists ip. rewrite Hpath, name_joinpath.
  unfold shown in Hs. apply andb_true_iff in Hs. destruct Hs as [Hs1 Hs2].
  apply negb_true_iff in Hs1, Hs2. apply bool_decide_eq_false in Hs2.
  repeat split; assumption.
Qed.

Lemma no_hidden_or_ignored_node_witness :
  exists ip,
    heap (session posix fs_project project [CallRowCount QModelIndex_null]) !! 0%nat
      = Some ip /\
    path (mkItem (joinpath project "src") (Some 0%nat) [] false)
      = joinpath (path ip) (name (path (mkItem (joinpath project "src") (Some 0%nat) [] false))) /\
    startswith (name (path (mkItem (joinpath project "src") (Some 0%nat) [] false))) "." = false /\
    name (path (mkItem (joinpath project "src") (Some 0%nat) [] false)) ∉ IGNORED.
Proof.
  apply (no_hidden_or_ignored_node posix fs_project project
           [CallRowCount QModelIndex_null] 2%nat
           (mkItem (joinpath project "src") (Some 0%nat) [] false) 0%nat);
    reflexivity.
Defined.

Lemma session_parent_below normcase fs D cs :
  let w := session normcase fs D cs in
  forall n it p, heap w !! n = Some it -> parent_item it = Some p -> (p < n)%nat.
Proof.
  cbv zeta.
  apply (session_induction normcase fs D
    (fun w => forall n it p, heap w !! n = Some it -> parent_item it = Some p ->
                             (p < n)%nat)).
  - intros [|n] it p H Hp; simpl in H; [|destruct n; discriminate].
    injection H as <-. discriminate.
  - intros w m IH.
    destruct (load_children_heap_step normcase fs m w)
      as [->|(it0 & ks & H0 & Hl0 & ->)]; [exact IH|].
    intros n x p Hx Hp.
    destruct (materialized_inv _ _ _ _ _ H0 _ _ Hx)
      as [[-> ->]|[[Hne Hx']|[Hr (q & Hq & ->)]]].
    + apply (IH m it0 p H0 Hp).
    + apply (IH n x p Hx' Hp).
    + simpl in Hp. injection Hp as <-. apply lookup_lt_Some in H0. lia.
Qed.

(** Ownership is tree-shaped in every world of a session: the parent of
    a node was allocated before it, so there is no cycle; a node lists each
    child once; its children list it as their parent; and no other node
    lists any of them. *)
Theorem ownership_is_a_tree normcase fs D cs n it :
  let w := session normcase fs D cs in
  heap w !! n = Some it ->
  (forall p, parent_item it = Some p -> (p < n)%nat) /\
  NoDup (child_items it) /\
  (forall c, c ∈ child_items it ->
     exists ic, heap w !! c = Some ic /\ parent_item ic = Some n) /\
  (forall c m im, c ∈ child_items it -> heap w !! m = Some im ->
     c ∈ child_items im -> m = n).
Proof.
  intros w H. pose proof (session_wf normcase fs D cs) as W. fold w in W.
  split; [|split; [|split]].
  - intros p Hp. eapply session_parent_below; eassumption.
  - apply (wf_nodup _ W _ _ H).
  - intros c Hc. apply (wf_children _ W _ _ _ H Hc).
  - intros c m im Hc Hm Hcm.
    destruct (wf_children _ W _ _ _ H Hc) as (ic & Hic & Hp).
    destruct (wf_children _ W _ _ _ Hm Hcm) as (ic' & Hic' & Hp').
    congruence.
Qed.

Lemma ownership_is_a_tree_witness :
  let w := session posix fs_project project [CallRowCount QModelIndex_null] in
  (forall p, parent_item (mkItem project None [1%nat; 2%nat] true) = Some p -> (p < 0)%nat) /\
  NoDup (child_items (mkItem project None [1%nat; 2%nat] true)) /\
  (forall c, c ∈ child_items (mkItem project None [1%nat; 2%nat] true) ->
     exists ic, heap w !! c = Some ic /\ parent_item ic = Some 0%nat) /\
  (forall c m im, c ∈ child_items (mkItem project None [1%nat; 2%nat] true) ->
     heap w !! m = Some im -> c ∈ child_items im -> m = 0%nat).
Proof.
  apply (ownership_is_a_tree posix fs_project project [CallRowCount QModelIndex_null]
           0%nat (mkItem project None [1%nat; 2%nat] true)).
  reflexivity.
Defined.

(** ** What no call changes *)

Lemma heap_step_keeps m h h' n x :
  heap_step m h h' -> h !! n = Some x ->
  exists x', h' !! n = Some x' /\ path x' = path x /\
             parent_item x' = parent_item x /\
             (forall c, c ∈ child_items x -> c ∈ child_items x').
Proof.
  intros [->|(it0 & ks & H0 & Hl0 & ->)] Hx.
  - exists x. repeat split; auto.
  - apply materialized_keeps; assumption.
Qed.

(** Objects are never removed and their [path] and [parent_item] are
    never reassigned: after any sequence of adapter calls, starting in any
    world, every object is still there with the path and the parent it had,
    and with every child it had. *)
Theorem path_and_parent_never_change normcase fs model w cs n x :
  heap w !! n = Some x ->
  exists x',
    heap (fold_left (fun w c => exec normcase fs model c w) cs w) !! n = Some x' /\
    path x' = path x /\ parent_item x' = parent_item x /\
    (forall c, c ∈ child_items x -> c ∈ child_items x').
Proof.
  revert w x. induction cs as [|c cs IH]; intros w x Hx; simpl.
  - exists x. repeat split; auto.
  - destruct (exec_heap_step normcase fs model c w) as (m & Hm).
    destruct (heap_step_keeps _ _ _ _ _ Hm Hx) as (x1 & Hx1 & Hp1 & Hq1 & Hc1).
    destruct (IH _ _ Hx1) as (x2 & Hx2 & Hp2 & Hq2 & Hc2).
    exists x2. repeat split; [assumption|congruence|congruence|auto].
Qed.

Lemma path_and_parent_never_change_witness :
  exists x',
    heap (fold_left (fun w c => exec posix fs_project fresh_model c w)
            [CallRowCount QModelIndex_null; CallIndex 1 0 QModelIndex_null]
            (session posix fs_project project [])) !! 0%nat = Some x' /\
    path x' = path (mkItem project None [] false) /\
    parent_item x' = parent_item (mkItem project None [] false) /\
    (forall c, c ∈ child_items (mkItem project None [] false) -> c ∈ child_items x').
Proof.
  apply (path_and_parent_never_change posix fs_project fresh_model
           (session posix fs_project project [])
           [CallRowCount QModelIndex_null; CallIndex 1 0 QModelIndex_null]
           0%nat (mkItem project None [] false)).
  reflexivity.
Defined.

(** ** The way up from an address *)

Lemma parent_of_address w n it p r c :
  wf (heap w) -> heap w !! n = Some it -> parent_item it = Some p ->
  exists pa, parent fresh_model (mkIndex r c (Some n) true) w = (Ok pa, w) /\
             (isValid (mkIndex r c (Some n) true) = true ->
              target fresh_model pa = Some p).
Proof.
  intros W Hn Hp. unfold parent.
  destruct (isValid (mkIndex r c (Some n) true)) eqn:Hv; simpl.
  2: { exists QModelIndex_null. split; [reflexivity|discriminate]. }
  rewrite (bind_ok (internalPointer (mkIndex r c (Some n) true)) _ w n w eq_refl).
  rewrite (bind_ok _ _ _ _ _ (get_item_ok _ _ _ Hn)), Hp.
  destruct (decide (p = 0%nat)) as [->|Hp0].
  - rewrite bool_decide_eq_true_2 by reflexivity.
    exists QModelIndex_null. split; reflexivity.
  - rewrite bool_decide_eq_false_2 by congruence.
    destruct (wf_parent _ W _ _ _ Hn Hp) as (ip & Hip & _).
    destruct (row_of_nonroot w p ip W Hip Hp0) as (j & _ & _ & _ & _ & _ & _ & _ & Hrp).
    rewrite (bind_ok _ _ _ _ _ Hrp).
    exists (createIndex (Z.of_nat j) 0 p). split; [reflexivity|]. intros _.
    unfold target, isValid. simpl.
    destruct (Z.leb_spec 0 (Z.of_nat j)); [reflexivity|lia].
Qed.

Lemma session_step_wf normcase fs D cs r c pa :
  wf (heap (run (index normcase fs fresh_model r c pa) (session normcase fs D cs))).
Proof.
  destruct (exec_heap_step normcase fs fresh_model (CallIndex r c pa)
              (session normcase fs D cs)) as (m & Hm).
  eapply wf_heap_step; [apply session_wf|exact Hm].
Qed.

(** In a session, the parent of a valid address that [index] returned
    under a parent address denotes the node that parent address denotes:
    [parent] undoes [index], and does not raise. *)
Theorem parent_undoes_index normcase fs D cs r c pa a w1 :
  let w := session normcase fs D cs in
  index normcase fs fresh_model r c pa w = (Ok a, w1) ->
  a <> QModelIndex_null ->
  exists p pa',
    target fresh_model pa = Some p /\
    parent fresh_model a w1 = (Ok pa', w1) /\
    target fresh_model pa' = Some p.
Proof.
  intros w Hi Ha.
  assert (W1 : wf (heap w1)).
  { pose proof (session_step_wf normcase fs D cs r c pa) as W.
    unfold run in W. fold w in W. rewrite Hi in W. exact W. }
  destruct (index_ok _ _ _ _ _ _ _ _ _ Hi)
    as [->|(-> & Hr & p & ip & ci & Ht & Hip & Hl & Hci & ->)]; [congruence|].
  destruct (wf_children _ W1 _ _ ci Hip (list_elem_of_lookup_2 _ _ _ Hci))
    as (ic & Hic & Hpc).
  destruct (parent_of_address w1 ci ic p r 0 W1 Hic Hpc) as (pa' & Hpa' & Ht').
  exists p, pa'. repeat split; [exact Ht|exact Hpa'|].
  apply Ht'. unfold isValid. simpl. destruct (Z.leb_spec 0 r); [reflexivity|lia].
Qed.

Lemma parent_undoes_index_witness :
  exists p pa',
    target fresh_model (createIndex 1 0 2%nat) = Some p /\
    parent fresh_model (createIndex 0 0 3%nat)
      (session posix fs_project project
         [CallRowCount QModelIndex_null; CallRowCount (createIndex 1 0 2%nat)])
    = (Ok pa', session posix fs_project project
                 [CallRowCount QModelIndex_null; CallRowCount (createIndex 1 0 2%nat)]) /\
    target fresh_model pa' = Some p.
Proof.
  apply (parent_undoes_index posix fs_project project
           [CallRowCount QModelIndex_null; CallRowCount (createIndex 1 0 2%nat)]
           0 0 (createIndex 1 0 2%nat)).
  - vm_compute. reflexivity.
  - discriminate.
Defined.

(** ** What the view displays *)

(** Under a directory node of a session, the rows display the surviving
    entry names in ascending order: [rowCount] returns their number, and
    for each row [index] gives an address whose display value is the name
    at that place of the ordered names. *)
Theorem rows_display_sorted_names normcase fs D cs self it names pa :
  let w := session normcase fs D cs in
  heap w !! self = Some it -> loaded it = false ->
  is_directory (fs (now w) (path it)) = true ->
  fs (S (now w)) (path it) = Directory names ->
  target fresh_model pa = Some self -> ix_column pa <= 0 ->
  exists w1 labels,
    rowCount normcase fs fresh_model pa w = (Ok (Z.of_nat (length labels)), w1) /\
    StronglySorted (name_le normcase) labels /\
    Permutation labels (List.filter shown names) /\
    forall r nm, labels !! r = Some nm ->
      exists a, index normcase fs fresh_model (Z.of_nat r) 0 pa w1 = (Ok a, w1) /\
                data fresh_model a DisplayRole w1 = (Ok (Some nm), w1).
Proof.
  intros w H Hl Hd Hn Ht Hcol.
  pose proof (wf_lazy _ (session_wf normcase fs D cs) _ _ H Hl) as Hnil.
  pose proof (load_children_dir normcase fs _ _ _ _ H Hl Hd Hn) as Hload.
  rewrite kept_sorted in Hload.
  set (labels := List.filter shown (sorted_names normcase names)) in *.
  set (ks := List.map (joinpath (path it)) labels) in *.
  set (w1 := mkWorld (materialized self it ks true (heap w))
                     ((syscalls w ++ [SysStat (path it)]) ++ [SysScandir (path it)])) in *.
  pose proof (materialized_self self it ks true (heap w) H) as Hself1.
  exists w1, labels. split; [|split; [|split]].
  - rewrite rowCount_eq, Ht. destruct (Z.gtb_spec (ix_column pa) 0); [lia|].
    rewrite (child_count_ok normcase fs self w w1 _ Hload Hself1).
    simpl. rewrite Hnil. simpl. rewrite length_seq. unfold ks. rewrite length_map.
    reflexivity.
  - apply filter_StronglySorted, sorted_names_StronglySorted.
  - apply filter_Permutation_bool, sorted_names_Permutation.
  - intros r nm Hlab. pose proof (lookup_lt_Some _ _ _ Hlab) as Hr.
    assert (Hlen : length ks = length labels) by (unfold ks; apply length_map).
    exists (createIndex (Z.of_nat r) 0 (length (heap w) + r)%nat). split.
    + eapply (index_loaded normcase fs fresh_model (Z.of_nat r) pa w1 self);
        [exact Ht|exact Hcol|exact Hself1|reflexivity| |lia].
      rewrite Nat2Z.id. simpl. rewrite Hnil. simpl.
      apply lookup_seq_lt. lia.
    + destruct (materialized_new self it ks true (heap w) H (length (heap w) + r)%nat)
        as (q & Hq & Hnew); [lia|].
      replace (length (heap w) + r - length (heap w))%nat with r in Hq by lia.
      unfold ks in Hq. rewrite list_lookup_fmap, Hlab in Hq. injection Hq as <-.
      unfold data.
      replace (isValid (createIndex (Z.of_nat r) 0 (length (heap w) + r)%nat))
        with true
        by (unfold isValid; simpl; destruct (Z.leb_spec 0 (Z.of_nat r)); [reflexivity|lia]).
      change (negb true) with false. cbv iota.
      rewrite (bind_ok (internalPointer (createIndex (Z.of_nat r) 0 (length (heap w) + r)%nat))
                 _ w1 (length (heap w) + r)%nat w1 eq_refl).
      rewrite (bind_ok _ _ _ _ _ (get_item_ok _ w1 _ Hnew)).
      simpl. rewrite name_joinpath. reflexivity.
Qed.

Lemma rows_display_sorted_names_witness :
  exists w1 labels,
    rowCount posix fs_project fresh_model QModelIndex_null
      (session posix fs_project project [])
    = (Ok (Z.of_nat (length labels)), w1) /\
    StronglySorted (name_le posix) labels /\
    Permutation labels (List.filter shown ["src"; "README.md"; ".git"; "venv"]) /\
    forall r nm, labels !! r = Some nm ->
      exists a, index posix fs_project fresh_model (Z.of_nat r) 0 QModelIndex_null w1
                = (Ok a, w1) /\
                data fresh_model a DisplayRole w1 = (Ok (Some nm), w1).
Proof.
  apply (rows_display_sorted_names posix fs_project project [] 0%nat
           (mkItem project None [] false) ["src"; "README.md"; ".git"; "venv"]
           QModelIndex_null); try reflexivity.
  simpl. lia.
Defined.

(** ** Which errors escape *)

Lemma raised_by_file_system_os fs w it e :
  raised_by_file_system fs w it e -> os_error e = true.
Proof.
  intros [_ [Hs|[_ Hsc]]].
  - eapply stat_is_dir_raise, Hs.
  - eapply scandir_raise, Hsc.
Qed.

Lemma load_children_raise_origin normcase fs n w it e w' :
  heap w !! n = Some it ->
  load_children normcase fs n w = (Raise e, w') ->
  raised_by_file_system fs w it e.
Proof.
  intros H. unfold raised_by_file_system. destruct (loaded it) eqn:Hl.
  - rewrite (load_children_loaded _ _ _ _ _ H Hl). discriminate.
  - rewrite (load_children_unloaded _ _ _ _ _ H Hl). cbv zeta.
    destruct (stat_is_dir _) as [[|]|e0] eqn:Hs; [|discriminate|].
    + rewrite now_log.
      destruct (scandir _) as [names|e1] eqn:Hsc; intros [= <- <-].
      split; [reflexivity|]. right. split; reflexivity.
    + intros [= <- <-]. split; [reflexivity|]. left. reflexivity.
Qed.

Lemma rowCount_raise_origin normcase fs model pa w n it e w' :
  target model pa = Some n -> heap w !! n = Some it ->
  rowCount normcase fs model pa w = (Raise e, w') ->
  raised_by_file_system fs w it e.
Proof.
  intros Ht H. rewrite rowCount_eq, Ht.
  destruct (ix_column pa >? 0); [discriminate|].
  unfold child_count, bind at 1.
  destruct (load_children normcase fs n w) as [[[]|e0] w2] eqn:Hload.
  - destruct (load_children_ok_loaded _ _ _ _ _ Hload) as (it1 & H1 & _).
    rewrite (bind_ok _ _ _ _ _ (get_item_ok _ _ _ H1)). discriminate.
  - intros [= <- <-]. eapply load_children_raise_origin; eassumption.
Qed.

Lemma index_raise_origin normcase fs model r c pa w n it e w' :
  target model pa = Some n -> heap w !! n = Some it ->
  index normcase fs model r c pa w = (Raise e, w') ->
  raised_by_file_system fs w it e.
Proof.
  intros Ht H. unfold index, bind at 1.
  destruct (hasIndex normcase fs model r c pa w) as [[[|]|e0] w2] eqn:Hh; simpl.
  - destruct (hasIndex_true _ _ _ _ _ _ _ _ Hh) as (Hr & -> & k & Hrc & Hrk).
    destruct (rowCount_ok _ _ _ _ _ _ _ Hrc)
      as [(_ & -> & _)|(Hc & p & ip & Ht' & _ & Hip & Hl & ->)]; [lia|].
    rewrite (bind_ok _ _ _ _ _ (resolve_target model pa p w2 Ht')).
    rewrite (bind_ok _ _ _ _ _ (child_eq p r w2 ip Hip)).
    repeat case_match; discriminate.
  - discriminate.
  - intros [= <- <-]. revert Hh. unfold hasIndex.
    destruct ((r <? 0) || (c <? 0)); [discriminate|].
    unfold bind at 1.
    destruct (rowCount normcase fs model pa w) as [[k|e1] w3] eqn:Hrc.
    + destruct (r <? k); discriminate.
    + intros [= <- <-]. eapply rowCount_raise_origin; eassumption.
Qed.

(** On the addresses of a session only errors of the file system escape.
    For a node [n] of the heap: whatever [rowCount] and [index] raise under
    an address that denotes [n] is an error of the operating system, raised
    while the unloaded [n] is materialized, by [is_dir] for the [stat] of
    its path or by the enumeration of it; [data] on an address that points
    to [n] returns; [parent] on it returns when [n] is not the root, and
    raises an attribute error on a valid address that points to the root
    itself, an address the adapter never hands out. *)
Theorem only_os_errors_escape normcase fs D cs n it :
  let w := session normcase fs D cs in
  heap w !! n = Some it ->
  (forall pa e w', target fresh_model pa = Some n ->
     rowCount normcase fs fresh_model pa w = (Raise e, w') ->
     os_error e = true /\ raised_by_file_system fs w it e) /\
  (forall pa r c e w', target fresh_model pa = Some n ->
     index normcase fs fresh_model r c pa w = (Raise e, w') ->
     os_error e = true /\ raised_by_file_system fs w it e) /\
  (forall r c role,
     exists v, data fresh_model (mkIndex r c (Some n) true) role w = (Ok v, w)) /\
  (n <> root_item fresh_model -> forall r c,
     exists pa, parent fresh_model (mkIndex r c (Some n) true) w = (Ok pa, w)) /\
  (n = root_item fresh_model -> forall r c, 0 <= r -> 0 <= c ->
     parent fresh_model (mkIndex r c (Some n) true) w = (Raise AttributeError, w)).
Proof.
  intros w H. pose proof (session_wf normcase fs D cs) as W. fold w in W.
  split; [|split; [|split; [|split]]].
  - intros pa e w' Ht Hr.
    pose proof (rowCount_raise_origin _ _ _ _ _ _ _ _ _ Ht H Hr) as Ho.
    split; [eapply raised_by_file_system_os|]; exact Ho.
  - intros pa r c e w' Ht Hr.
    pose proof (index_raise_origin _ _ _ _ _ _ _ _ _ _ _ Ht H Hr) as Ho.
    split; [eapply raised_by_file_system_os|]; exact Ho.
  - intros r c role. unfold data.
    destruct (isValid (mkIndex r c (Some n) true)); simpl; [|eexists; reflexivity].
    destruct role; try (eexists; reflexivity).
    rewrite (bind_ok (internalPointer (mkIndex r c (Some n) true)) _ w n w eq_refl).
    rewrite (bind_ok _ _ _ _ _ (get_item_ok _ _ _ H)).
    eexists; reflexivity.
  - intros Hne r c. simpl in Hne.
    destruct (parent_item it) as [p|] eqn:Hp.
    + destruct (parent_of_address w n it p r c W H Hp) as (pa & Hpa & _). eauto.
    + exfalso. apply Hne, (wf_root _ W _ _ H), Hp.
  - intros -> r c Hr Hc. simpl in H.
    assert (Hp : parent_item it = None) by (apply (wf_root _ W _ _ H); reflexivity).
    unfold parent, isValid. simpl.
    destruct (Z.leb_spec 0 r); [|lia]. destruct (Z.leb_spec 0 c); [|lia]. simpl.
    rewrite (bind_ok (internalPointer (mkIndex r c (Some 0%nat) true)) _ w 0%nat w eq_refl).
    rewrite (bind_ok _ _ _ _ _ (get_item_ok _ _ _ H)), Hp.
    reflexivity.
Qed.

Lemma only_os_errors_escape_witness :
  let w := session posix fs_unsearchable project [CallRowCount QModelIndex_null] in
  let it := mkItem (joinpath project "f") (Some 0%nat) [] false in
  (forall pa e w', target fresh_model pa = Some 1%nat ->
     rowCount posix fs_unsearchable fresh_model pa w = (Raise e, w') ->
     os_error e = true /\ raised_by_file_system fs_unsearchable w it e) /\
  (forall pa r c e w', target fresh_model pa = Some 1%nat ->
     index posix fs_unsearchable fresh_model r c pa w = (Raise e, w') ->
     os_error e = true /\ raised_by_file_system fs_unsearchable w it e) /\
  (forall r c role,
     exists v, data fresh_model (mkIndex r c (Some 1%nat) true) role w = (Ok v, w)) /\
  (1%nat <> root_item fresh_model -> forall r c,
     exists pa, parent fresh_model (mkIndex r c (Some 1%nat) true) w = (Ok pa, w)) /\
  (1%nat = root_item fresh_model -> forall r c, 0 <= r -> 0 <= c ->
     parent fresh_model (mkIndex r c (Some 1%nat) true) w = (Raise AttributeError, w)).
Proof.
  apply (only_os_errors_escape posix fs_unsearchable project
           [CallRowCount QModelIndex_null] 1%nat
           (mkItem (joinpath project "f") (Some 0%nat) [] false)).
  reflexivity.
Defined.

(** The entry of a listable directory that may not be searched: the
    [stat] of the entry is denied, and [rowCount] on its address raises the
    permission error without any enumeration. *)
Example unsearchable_entry_raises :
  let w := session posix fs_unsearchable project [CallRowCount QModelIndex_null] in
  rowCount posix fs_unsearchable fresh_model (createIndex 0 0 1%nat) w
  = (Raise PermissionError,
     mkWorld (heap w) (syscalls w ++ [SysStat (joinpath project "f")])).
Proof. vm_compute. reflexivity. Qed.

(** * The theme manager *)

(** Every theme operation leaves one of two states, the light and the
    dark one, in which [current_theme] names the palette in force;
    [toggle_theme] maps each of the two to the other; and toggling twice
    gives back the state it started from exactly when that state is one of
    the two. After the constructor alone, where the theme is called light
    but no palette was applied, two toggles install the light palette. *)
Theorem toggle_theme_switches_themed_states default_palette s :
  let light := set_light_theme default_palette s in
  let dark := set_dark_theme default_palette s in
  (forall o, apply_theme_op default_palette s o = light \/
             apply_theme_op default_palette s o = dark) /\
  toggle_theme default_palette light = dark /\
  toggle_theme default_palette dark = light /\
  light <> dark /\
  (toggle_theme default_palette (toggle_theme default_palette s) = s <->
   s = light \/ s = dark) /\
  (forall app,
     toggle_theme default_palette
       (toggle_theme default_palette (ThemeManager_init app)) = light).
Proof.
  cbv zeta.
  assert (Hne : set_light_theme default_palette s <> set_dark_theme default_palette s)
    by (unfold set_light_theme, set_dark_theme; intros [= H _]; discriminate).
  split; [|split; [|split; [|split; [|split]]]].
  - intros [| |]; simpl; [left; reflexivity|right; reflexivity|].
    unfold toggle_theme. destruct (String.eqb _ _); [right|left]; reflexivity.
  - reflexivity.
  - reflexivity.
  - exact Hne.
  - assert (Hcases : forall x,
              toggle_theme default_palette x = set_light_theme default_palette s \/
              toggle_theme default_palette x = set_dark_theme default_palette s).
    { intros x. unfold toggle_theme.
      destruct (String.eqb _ _); [right|left]; reflexivity. }
    assert (Hback : forall x,
              x = set_light_theme default_palette s \/
              x = set_dark_theme default_palette s ->
              toggle_theme default_palette (toggle_theme default_palette x) = x).
    { intros x [->| ->]; reflexivity. }
    split; [|apply Hback].
    intros H.
    destruct (Hcases (toggle_theme default_palette s)) as [E|E];
      rewrite E in H; [left|right]; symmetry; exact H.
  - intros app. reflexivity.
Qed.

(** * The main window *)

Section WindowFacts.

Variable normcase : string -> string.
Variable fs_of : nat -> FileSystem.
Variable Path_of : string -> list string.
Variable home : list string.
Variable default_palette : QPalette.t.

Local Abbreviation handle_all :=
  (fold_left (handle normcase fs_of Path_of default_palette)).

Lemma handle_project_path s e :
  is_Some (current_project_path (handle normcase fs_of Path_of default_palette s e))
  <-> is_Some (current_project_path s) \/ project_chosen [e] = true.
Proof.
  destruct e as [d|d|t| | | |c]; simpl;
    try (split; [intros H; left; exact H|intros [H|H]; [exact H|discriminate]]).
  - unfold new_project. destruct (String.eqb d ""); simpl.
    + split; [auto|intros [H|H]; [exact H|discriminate]].
    + split; [auto|eauto].
  - unfold open_project. destruct (String.eqb d ""); simpl.
    + split; [auto|intros [H|H]; [exact H|discriminate]].
    + split; [auto|eauto].
  - unfold generate_code, warn.
    destruct (current_project_path s) eqn:E; [destruct (String.eqb _ _)|];
      simpl; rewrite ?E;
      (split; [intros H; left; exact H|intros [H|H]; [exact H|discriminate]]).
Qed.

Lemma handle_all_project_path evs :
  forall s,
    is_Some (current_project_path (handle_all evs s))
    <-> is_Some (current_project_path s) \/ project_chosen evs = true.
Proof.
  induction evs as [|e evs IH]; intros s; simpl.
  - split; [auto|intros [H|H]; [exact H|discriminate]].
  - rewrite IH, handle_project_path. simpl. rewrite orb_false_r.
    rewrite orb_true_iff. tauto.
Qed.

Lemma session_snoc fs D cs c :
  session normcase fs D (cs ++ [c])
  = exec normcase fs fresh_model c (session normcase fs D cs).
Proof. unfold session. rewrite fold_left_app. reflexivity. Qed.

Lemma handle_tree_session s e :
  (exists cs, file_tree_model s
              = session normcase (fs_of (generation s)) (tree_root home s) cs) ->
  exists cs,
    file_tree_model (handle normcase fs_of Path_of default_palette s e)
    = session normcase
        (fs_of (generation (handle normcase fs_of Path_of default_palette s e)))
        (tree_root home (handle normcase fs_of Path_of default_palette s e)) cs.
Proof.
  intros [cs Hcs].
  destruct e as [d|d|t| | | |c]; simpl; try (exists cs; exact Hcs).
  - unfold new_project. destruct (String.eqb d ""); simpl; [exists cs; exact Hcs|].
    exists []. reflexivity.
  - unfold open_project. destruct (String.eqb d ""); simpl; [exists cs; exact Hcs|].
    exists []. reflexivity.
  - unfold generate_code, warn, tree_root in *. revert Hcs.
    destruct (current_project_path s) eqn:E; [destruct (String.eqb _ _)|];
      simpl; rewrite ?E; intros Hcs; exists cs; exact Hcs.
  - exists (cs ++ [c]). rewrite session_snoc, Hcs. reflexivity.
Qed.

End WindowFacts.

(** [generate_code] goes ahead only with a project and a prompt, and
    asks for the project first. After any history of the window: if no
    directory dialog was ever answered with a directory, it shows the
    warning about the project, whatever the prompt and although a tree (of
    the home directory) is displayed; otherwise, with an empty prompt it
    shows the warning about the prompt; otherwise it sets the status to
    "Generating code..." and shows no warning. *)
Theorem generate_code_needs_project_then_prompt
    normcase fs_of Path_of home default_palette app evs :
  let s := fold_left (handle normcase fs_of Path_of default_palette) evs
                     (MainWindow_init home default_palette app) in
  (project_chosen evs = false ->
     generate_code s = warn "Please create or open a project first." s) /\
  (project_chosen evs = true -> prompt_text s = "" ->
     generate_code s = warn "Please enter a prompt first." s) /\
  (project_chosen evs = true -> prompt_text s <> "" ->
     status_message (generate_code s) = "Generating code..." /\
     warnings (generate_code s) = warnings s).
Proof.
  intros s.
  pose proof (handle_all_project_path normcase fs_of Path_of default_palette evs
                (MainWindow_init home default_palette app)) as Hp.
  fold s in Hp. simpl in Hp. unfold generate_code.
  split; [|split].
  - intros Hno. destruct (current_project_path s) as [p|]; [|reflexivity].
    destruct (proj1 Hp (mk_is_Some _ _ eq_refl)) as [[x Hx]|H]; congruence.
  - intros Hyes Hempty.
    destruct (current_project_path s) as [p|].
    + rewrite Hempty. reflexivity.
    + destruct (proj2 Hp (or_intror Hyes)) as [x Hx]. discriminate.
  - intros Hyes Hprompt.
    destruct (current_project_path s) as [p|].
    + destruct (String.eqb_spec (prompt_text s) ""); [contradiction|].
      split; reflexivity.
    + destruct (proj2 Hp (or_intror Hyes)) as [x Hx]. discriminate.
Qed.

(** The tree of the window is always the tree of a session on the
    current project directory, or on the home directory as long as no
    project was chosen: after any history, its world is the one reached
    from a fresh model on that root by some sequence of adapter calls. *)
Theorem window_tree_is_a_session
    normcase fs_of Path_of home default_palette app evs :
  let s := fold_left (handle normcase fs_of Path_of default_palette) evs
                     (MainWindow_init home default_palette app) in
  exists cs,
    file_tree_model s
    = session normcase (fs_of (generation s)) (tree_root home s) cs.
Proof.
  cbv zeta.
  assert (G : forall evs s0,
    (exists cs, file_tree_model s0
                = session normcase (fs_of (generation s0)) (tree_root home s0) cs) ->
    exists cs,
      file_tree_model (fold_left (handle normcase fs_of Path_of default_palette) evs s0)
      = session normcase
          (fs_of (generation (fold_left (handle normcase fs_of Path_of default_palette) evs s0)))
          (tree_root home (fold_left (handle normcase fs_of Path_of default_palette) evs s0))
          cs).
  { clear evs. induction evs as [|e evs IH]; intros s0 H0; simpl; [exact H0|].
    apply IH, handle_tree_session, H0. }
  apply G. exists []. reflexivity.
Qed.
